(** * localinference: the bounded inference server

    A shallow embedding of [server.py]: two POST endpoints, [/chat] and
    [/summarize], validate a JSON body, hand the blocking pipeline call to
    one module-level [ThreadPoolExecutor(max_workers=4)] through
    [loop.run_in_executor], await the future and return a JSON object.

    The pipelines of [transformers] are external: they are section
    variables, functions of the input text and the keyword arguments the
    source passes. The thread pool and the event loop are modelled as a
    transition system whose events are the four things that happen to a
    request: the loop reads it and submits the work item, a worker thread
    takes the item off the queue, the worker's call finishes and resolves the
    future, the loop resumes the awaiting handler and writes the response. *)

From stdpp Require Import base option list gmap strings sorting.
From stdpp Require Import pretty.

Local Open Scope Z_scope.
Local Open Scope string_scope.
Local Open Scope list_scope.
Local Open Scope stdpp_scope.

(** ** JSON values and request bodies *)

(** A Python float as [json.loads] makes it: a finite value [m * 2^e], or
    one of the three that [1e999], [Infinity], [-Infinity] and [NaN] give. *)
Inductive pyfloat :=
| Finite (m e : Z)
| Infinity
| NegInfinity
| NaN.

#[warnings="-automation"]
Inductive json :=
| JNull
| JBool (b : bool)
| JNum (n : Z)
| JFloat (x : pyfloat)
| JStr (s : string)
| JArr (items : list json)
| JObj (fields : list (string * json)).

(** [json.loads] builds a dict from an object: of two fields with one key the
    later one stays. *)
Fixpoint dict_get (k : string) (fields : list (string * json)) : option json :=
  match fields with
  | [] => None
  | (k', v) :: rest =>
      match dict_get k rest with
      | Some v' => Some v'
      | None => if decide (k' = k) then Some v else None
      end
  end.

(** The bytes of a POST body sent as [application/json], by what
    [json.loads] makes of them: [Unreadable] when it raises anything but a
    [JSONDecodeError] (bytes that are not UTF-8, an integer literal of more
    than 4300 digits), [Decoded None] when it raises [JSONDecodeError], and
    [Decoded (Some j)] when it returns [j]. *)
Inductive http_body :=
| Unreadable
| Decoded (o : option json).

#[warnings="-uniform-inheritance"]
Coercion Decoded : option >-> http_body.

(** Schema validation of a body against [ChatRequest] or [SummaryRequest],
    two models with the single field [text: str]: the body is an object
    whose ["text"] is a JSON string; other fields are ignored, and nothing is
    coerced to a string. The result is [req.text]. *)
Definition text_field (b : http_body) : option string :=
  match b with
  | Decoded (Some (JObj fields)) =>
      match dict_get "text" fields with
      | Some (JStr s) => Some s
      | _ => None
      end
  | _ => None
  end.

(** Whether a value holds a float that [json.dumps(..., allow_nan=False)]
    refuses. Of two fields of an object with one key only the later one is
    in the dict. *)
Fixpoint has_nonfinite (j : json) : bool :=
  match j with
  | JFloat (Finite _ _) => false
  | JFloat _ => true
  | JArr items =>
      (fix go (l : list json) : bool :=
         match l with
         | [] => false
         | x :: l' => has_nonfinite x || go l'
         end) items
  | JObj fields =>
      (fix go (l : list (string * json)) : bool :=
         match l with
         | [] => false
         | (k, v) :: l' =>
             (negb (bool_decide (k ∈ l'.*1)) && has_nonfinite v) || go l'
         end) fields
  | _ => false
  end.

(** The [input] the validation error of a body that does not conform
    reports: the value of ["text"] when it is there and no string, the
    whole body otherwise. *)
Definition error_input (j : json) : json :=
  match j with
  | JObj fields =>
      match dict_get "text" fields with
      | Some v => v
      | None => j
      end
  | _ => j
  end.

(** ** Exceptions and results *)

Inductive exn :=
| IndexError
| KeyError (k : string)
| PipelineError (msg : string).

Inductive outcome (A : Type) :=
| Returns (a : A)
| Raises (e : exn).
Arguments Returns {A} a.
Arguments Raises {A} e.

#[global] Instance outcome_ret : MRet outcome := fun A a => Returns a.
#[global] Instance outcome_bind : MBind outcome := fun A B f m =>
  match m with
  | Returns a => f a
  | Raises e => Raises e
  end.

(** [out[i]] on a list and [d[k]] on a dict. *)
Definition item {A} (l : list A) (i : nat) : outcome A :=
  match l !! i with
  | Some a => Returns a
  | None => Raises IndexError
  end.

Definition getitem (d : gmap string string) (k : string) : outcome string :=
  match d !! k with
  | Some v => Returns v
  | None => Raises (KeyError k)
  end.

(** ** HTTP responses *)

Inductive content :=
| JsonContent (j : json)
| PlainText (s : string)
| ValidationDetail.

Record response := { status_code : Z; body : content }.

(** What the framework answers when a handler returns a dict, when the body
    fails validation, and when the handler raises. *)
Definition json_response (j : json) : response :=
  {| status_code := 200; body := JsonContent j |}.

Definition unprocessable_entity : response :=
  {| status_code := 422; body := ValidationDetail |}.

Definition internal_server_error : response :=
  {| status_code := 500; body := PlainText "Internal Server Error" |}.

(** The framework's answer when reading the body fails with anything but a
    [JSONDecodeError]. *)
Definition bad_request : response :=
  {| status_code := 400;
     body := JsonContent
               (JObj [("detail", JStr "There was an error parsing the body")]) |}.

(** What a body that does not conform is answered, before any handler
    runs: 400 when it cannot be read, 422 with the validation errors
    otherwise; the errors quote the rejected input, and when that holds a
    float which is not finite the 422 cannot be rendered and the answer
    is the 500 of an unhandled exception. *)
Definition rejection (b : http_body) : response :=
  match b with
  | Unreadable => bad_request
  | Decoded None => unprocessable_entity
  | Decoded (Some j) =>
      if has_nonfinite (error_input j) then internal_server_error
      else unprocessable_entity
  end.

Definition to_response (o : outcome json) : response :=
  match o with
  | Returns j => json_response j
  | Raises _ => internal_server_error
  end.

(** ** Configuration constants of the source *)

(** [executor = ThreadPoolExecutor(max_workers=4)] *)
Definition max_workers : nat := 4.

(** [uvicorn.run(app, host="0.0.0.0", port=8000)] *)
Definition host : string := "0.0.0.0".
Definition port : Z := 8000.

(** The closing lines [main] of [test_concurrent.py] prints. *)
Definition server_configuration_notes : list string :=
  [ "   - ThreadPoolExecutor: 20 workers";
    "   - Semaphore limit: 15 concurrent GPU requests";
    "   - GPU: MPS (Metal Performance Shaders) on M4 Mac" ].

(** ** Pipeline calls *)

Record generation_kwargs := { max_new_tokens : Z; return_full_text : bool }.
Record summarization_kwargs :=
  { max_length : Z; min_length : Z; do_sample : bool }.

Abbreviation pipe_output := (list (gmap string string)).

(** One invocation of a pipeline, as a backend stub would count it. *)
Inductive call :=
| GenerateCall (text : string) (kw : generation_kwargs)
| SummarizeCall (text : string) (kw : summarization_kwargs).

Inductive endpoint := Chat | Summarize.

#[global] Instance endpoint_eq_dec : EqDecision endpoint.
Proof. solve_decision. Defined.

(** A work item of the executor: the future it resolves, the function
    ([run_chat] or [run_summarize]) and its argument. *)
Record work_item := { future : nat; fn : endpoint; arg : string }.

(** Takes the item of future [rid] out of a list of items. *)
Fixpoint take_item (rid : nat) (l : list work_item)
  : option (work_item * list work_item) :=
  match l with
  | [] => None
  | w :: l' =>
      if decide (future w = rid) then Some (w, l')
      else '(x, r) ← take_item rid l'; Some (x, w :: r)
  end.

(** The state of the server process. A request is named by its arrival
    number, the index of its entry in [requests]. [work_queue] is the
    executor's queue, [running] the items its workers are executing,
    [futures] the resolved futures, [awaiting] the handlers suspended at
    their [await]; [responses] and [backend_calls] record, in order, the
    responses written and the pipeline calls started. *)
Record state := {
  requests : list (endpoint * http_body);
  work_queue : list work_item;
  running : list work_item;
  futures : gmap nat (outcome string);
  awaiting : list work_item;
  responses : list (nat * response);
  backend_calls : list (nat * call)
}.

Definition init : state :=
  {| requests := []; work_queue := []; running := []; futures := ∅;
     awaiting := []; responses := []; backend_calls := [] |}.

(** What happens in the process, one event at a time:
    - [Request ep b]: the event loop reads a POST to [/chat] or
      [/summarize]; the framework validates the body and, when it conforms,
      runs the handler up to [await loop.run_in_executor(executor, f,
      req.text)], which puts a work item on the executor's queue and
      suspends the handler;
    - [Pick]: a worker thread of the executor, of which there are at most
      [max_workers], takes the item at the head of the queue and starts the
      call [f(text)];
    - [Complete rid]: the call of the running item [rid] returns or raises;
      its future is resolved and the worker is free again;
    - [Respond rid]: the loop resumes the handler that awaits the resolved
      future [rid], and the response is written. *)
Inductive event :=
| Request (ep : endpoint) (b : http_body)
| Pick
| Complete (rid : nat)
| Respond (rid : nat).

(** The keyword arguments [run_chat] and [run_summarize] pass. *)
Definition chat_call (text : string) : call :=
  GenerateCall text {| max_new_tokens := 100; return_full_text := false |}.

Definition summarize_call (text : string) : call :=
  SummarizeCall text
    {| max_length := 130; min_length := 30; do_sample := false |}.

(** The call a work item makes on the backend. *)
Definition call_of (f : endpoint) (text : string) : call :=
  match f with
  | Chat => chat_call text
  | Summarize => summarize_call text
  end.

Definition pick_order (s : state) : list nat := (backend_calls s).*1.
Definition queue_ids (s : state) : list nat := future <$> work_queue s.
Definition running_ids (s : state) : list nat := future <$> running s.
Definition awaiting_ids (s : state) : list nat := future <$> awaiting s.
Definition responded_ids (s : state) : list nat := (responses s).*1.

(** The requests whose backend call has been invoked and has not finished. *)
Definition in_backend (s : state) : list nat :=
  filter (fun rid => futures s !! rid = None) (pick_order s).

(** The backend calls made for one request, as a call counter on a backend
    stub sees them. *)
Definition calls_of_request (rid : nat) (s : state) : list call :=
  (filter (fun p => p.1 = rid) (backend_calls s)).*2.

(** The occupancy bound as the specification words it, for a gate of [M]
    admission permits next to the worker pool. *)
Definition permit_bound (M : nat) (s : state) : Prop :=
  (length (in_backend s) ≤ Nat.min max_workers M)%nat.

(** Every answered request that passed validation has its future resolved. *)
Definition responses_resolved (s : state) : Prop :=
  ∀ rid resp ep b, (rid, resp) ∈ responses s →
    requests s !! rid = Some (ep, b) → is_Some (text_field b) →
    is_Some (futures s !! rid).

(** The work items of one kind among the running ones. *)
Definition running_of (f : endpoint) (s : state) : list work_item :=
  filter (fun w => fn w = f) (running s).

(** The arrival numbers of the requests that passed validation, in order. *)
Fixpoint submitted_from (n : nat) (reqs : list (endpoint * http_body))
  : list nat :=
  match reqs with
  | [] => []
  | (_, b) :: rest =>
      match text_field b with
      | Some _ => n :: submitted_from (S n) rest
      | None => submitted_from (S n) rest
      end
  end.

Definition submitted (reqs : list (endpoint * http_body)) : list nat :=
  submitted_from 0 reqs.

Definition is_pick (e : event) : bool :=
  match e with
  | Pick => true
  | _ => false
  end.

(** How many work items the workers take during a trace. *)
Definition picks (tr : list event) : nat := length (filter is_pick tr).

Section Server.

(** [chat_pipe = pipeline("text-generation", ...)] and
    [summary_pipe = pipeline("summarization", ...)]. *)
Variable chat_pipe : string -> generation_kwargs -> outcome pipe_output.
Variable summary_pipe : string -> summarization_kwargs -> outcome pipe_output.

Definition backend (c : call) : outcome pipe_output :=
  match c with
  | GenerateCall text kw => chat_pipe text kw
  | SummarizeCall text kw => summary_pipe text kw
  end.

(** [out = chat_pipe(text, max_new_tokens=100, return_full_text=False)]
    then [out[0]["generated_text"]]. *)
Definition run_chat (text : string) : outcome string :=
  out ← backend (chat_call text);
  d ← item out 0;
  getitem d "generated_text".

(** [out = summary_pipe(text, max_length=130, min_length=30,
    do_sample=False)] then [out[0]["summary_text"]]. *)
Definition run_summarize (text : string) : outcome string :=
  out ← backend (summarize_call text);
  d ← item out 0;
  getitem d "summary_text".

Definition run_task (f : endpoint) (text : string) : outcome string :=
  match f with
  | Chat => run_chat text
  | Summarize => run_summarize text
  end.

(** The handlers after their [await]: [return {"response": result}] and
    [return {"summary": result}]; an exception of the awaited future
    propagates. *)
Definition chat (result : outcome string) : outcome json :=
  r ← result; mret (JObj [("response", JStr r)]).

Definition summarize (result : outcome string) : outcome json :=
  r ← result; mret (JObj [("summary", JStr r)]).

Definition resume (ep : endpoint) (result : outcome string) : response :=
  match ep with
  | Chat => to_response (chat result)
  | Summarize => to_response (summarize result)
  end.

(** What one request is answered, read off the handler alone. *)
Definition answer (ep : endpoint) (b : http_body) : response :=
  match text_field b with
  | None => rejection b
  | Some text => resume ep (run_task ep text)
  end.

(** One event of the process. [None]: the event cannot happen in [s]. *)
Definition exec (s : state) (e : event) : option state :=
  match e with
  | Request ep b =>
      let rid := length (requests s) in
      match text_field b with
      | None =>
          Some {| requests := requests s ++ [(ep, b)];
                  work_queue := work_queue s;
                  running := running s;
                  futures := futures s;
                  awaiting := awaiting s;
                  responses := responses s ++ [(rid, rejection b)];
                  backend_calls := backend_calls s |}
      | Some text =>
          let w := {| future := rid; fn := ep; arg := text |} in
          Some {| requests := requests s ++ [(ep, b)];
                  work_queue := work_queue s ++ [w];
                  running := running s;
                  futures := futures s;
                  awaiting := awaiting s ++ [w];
                  responses := responses s;
                  backend_calls := backend_calls s |}
      end
  | Pick =>
      match work_queue s with
      | [] => None
      | w :: q =>
          if decide (length (running s) < max_workers)%nat then
            Some {| requests := requests s;
                    work_queue := q;
                    running := running s ++ [w];
                    futures := futures s;
                    awaiting := awaiting s;
                    responses := responses s;
                    backend_calls :=
                      backend_calls s ++ [(future w, call_of (fn w) (arg w))] |}
          else None
      end
  | Complete rid =>
      '(w, rest) ← take_item rid (running s);
      Some {| requests := requests s;
              work_queue := work_queue s;
              running := rest;
              futures := <[rid := run_task (fn w) (arg w)]> (futures s);
              awaiting := awaiting s;
              responses := responses s;
              backend_calls := backend_calls s |}
  | Respond rid =>
      '(w, rest) ← take_item rid (awaiting s);
      result ← futures s !! rid;
      Some {| requests := requests s;
              work_queue := work_queue s;
              running := running s;
              futures := futures s;
              awaiting := rest;
              responses := responses s ++ [(rid, resume (fn w) result)];
              backend_calls := backend_calls s |}
  end.

Fixpoint run (s : state) (tr : list event) : option state :=
  match tr with
  | [] => Some s
  | e :: tr' => s' ← exec s e; run s' tr'
  end.

Definition reachable (s : state) : Prop := ∃ tr, run init tr = Some s.

(** A work item belongs to the request whose future it carries. *)
Definition item_ok (reqs : list (endpoint * http_body)) (w : work_item)
  : Prop :=
  ∃ b, reqs !! future w = Some (fn w, b) ∧ text_field b = Some (arg w).

(** What holds of every state the process can be in. *)
Record invariant (s : state) : Prop := {
  inv_queue : Forall (item_ok (requests s)) (work_queue s);
  inv_running : Forall (item_ok (requests s)) (running s);
  inv_awaiting : Forall (item_ok (requests s)) (awaiting s);
  inv_timeline : pick_order s ++ queue_ids s = submitted (requests s);
  inv_calls : ∀ rid c, (rid, c) ∈ backend_calls s →
    ∃ ep b text, requests s !! rid = Some (ep, b) ∧
                 text_field b = Some text ∧ c = call_of ep text;
  inv_futures : ∀ rid o, futures s !! rid = Some o →
    rid ∈ pick_order s ∧
    ∃ ep b text, requests s !! rid = Some (ep, b) ∧
                 text_field b = Some text ∧ o = run_task ep text;
  inv_occupied : ∀ rid,
    rid ∈ running_ids s ↔ rid ∈ pick_order s ∧ futures s !! rid = None;
  inv_running_nodup : NoDup (running_ids s);
  inv_workers : (length (running s) ≤ max_workers)%nat;
  inv_responses : ∀ rid resp, (rid, resp) ∈ responses s →
    ∃ ep b, requests s !! rid = Some (ep, b) ∧ resp = answer ep b;
  inv_pending : ∀ rid ep b, requests s !! rid = Some (ep, b) →
    rid ∈ awaiting_ids s ∨ rid ∈ responded_ids s
}.

End Server.

(** Backend stubs for the concrete runs below. *)
Definition echo_chat_pipe (text : string) (kw : generation_kwargs)
  : outcome pipe_output :=
  Returns [ {[ "generated_text" := text ]} ].

Definition echo_summary_pipe (text : string) (kw : summarization_kwargs)
  : outcome pipe_output :=
  Returns [ {[ "summary_text" := text ]} ].

Definition failing_chat_pipe (text : string) (kw : generation_kwargs)
  : outcome pipe_output :=
  Raises (PipelineError "out of memory").

Definition text_body (s : string) : http_body := Some (JObj [("text", JStr s)]).

(** The state a trace leads to from the start of the process. *)
Definition state_after
    (chat_pipe : string -> generation_kwargs -> outcome pipe_output)
    (summary_pipe : string -> summarization_kwargs -> outcome pipe_output)
    (tr : list event) : state :=
  default init (run chat_pipe summary_pipe init tr).

(** Three chat requests submitted and taken by three workers. *)
Definition three_in_flight : list event :=
  [ Request Chat (text_body "a"); Request Chat (text_body "b");
    Request Chat (text_body "c"); Pick; Pick; Pick ].

(** Six requests, one of them malformed; four are running, one waits. *)
Definition busy_pool : list event :=
  [ Request Chat (text_body "a"); Request Summarize (text_body "b");
    Request Chat (Some (JObj [("text", JNum 5)]));
    Request Chat (text_body "c"); Request Summarize (text_body "d");
    Request Chat (text_body "e"); Pick; Pick; Pick; Pick ].

(** Two summaries of one text, each served to the end. *)
Definition two_summaries : list event :=
  [ Request Summarize (text_body "t");
    Request Summarize (Some (JObj [("lang", JStr "en"); ("text", JStr "t")]));
    Pick; Pick; Complete 1; Complete 0; Respond 0; Respond 1 ].

(** One chat request whose call is running. *)
Definition one_running : list event := [ Request Chat (text_body "hi"); Pick ].

(** ** Stages of a request *)

Definition is_request (e : event) : bool :=
  match e with
  | Request _ _ => true
  | _ => false
  end.

(** A trace during which no new request arrives. *)
Definition quiet (tr : list event) : Prop :=
  Forall (fun e => is_request e = false) tr.

(** Nothing queued, no worker busy, no handler suspended. *)
Definition quiescent (s : state) : Prop :=
  work_queue s = [] ∧ running s = [] ∧ awaiting s = [].

(** The events still owed to the requests in flight: a queued item is to be
    taken, completed and answered, a running one completed and answered, and
    every suspended handler resumed. *)
Definition pending_work (s : state) : nat :=
  (2 * length (work_queue s) + length (running s) + length (awaiting s))%nat.

(** No handler is suspended twice, no request answered twice, and none both
    suspended and answered. *)
Definition answered_once (s : state) : Prop :=
  NoDup (awaiting_ids s) ∧ NoDup (responded_ids s) ∧
  ∀ rid, rid ∈ awaiting_ids s → rid ∉ responded_ids s.

(** ** The routes of the application *)

(** [@app.post("/chat")] and [@app.post("/summarize")]: the handler a POST
    to a path reaches. *)
Definition route (path : string) : option endpoint :=
  if decide (path = "/chat") then Some Chat
  else if decide (path = "/summarize") then Some Summarize
  else None.

(** ** The demo page returned by [home] *)

(** What the [output] element shows: nothing while it is hidden, a progress
    text, or the value read off the response ([None] is [undefined]). *)
Inductive shown :=
| Hidden
| Progress (s : string)
| Value (v : option json).

Record page := {
  mode : string;
  chatBtn_active : bool;
  summaryBtn_active : bool;
  placeholder : string;
  input : string;
  output : shown
}.

(** The page as the HTML has it, with [let mode = 'chat']. *)
Definition page_loaded : page :=
  {| mode := "chat"; chatBtn_active := true; summaryBtn_active := false;
     placeholder := "Enter your text..."; input := ""; output := Hidden |}.

Definition switchMode (newMode : string) (p : page) : page :=
  {| mode := newMode;
     chatBtn_active := bool_decide (newMode = "chat");
     summaryBtn_active := bool_decide (newMode = "summary");
     placeholder := if decide (newMode = "chat") then "Enter your question..."
                    else "Enter text to summarize...";
     input := input p;
     output := output p |}.

(** The user types into the textarea. *)
Definition type_text (text : string) (p : page) : page :=
  {| mode := mode p; chatBtn_active := chatBtn_active p;
     summaryBtn_active := summaryBtn_active p; placeholder := placeholder p;
     input := text; output := output p |}.

(** [submit] up to its [await fetch(...)]: the page with the progress text,
    the path posted to and the body [JSON.stringify({text})]. *)
Definition submit_fetch (p : page) : page * string * http_body :=
  ({| mode := mode p; chatBtn_active := chatBtn_active p;
      summaryBtn_active := summaryBtn_active p; placeholder := placeholder p;
      input := input p;
      output := Progress (if decide (mode p = "chat") then "Generating..."
                          else "Summarizing...") |},
   if decide (mode p = "chat") then "/chat" else "/summarize",
   Decoded (Some (JObj [("text", JStr (input p))]))).

(** [data.k] for a key that is no built-in property (the page reads
    [response] and [summary]): an entry of an object, [undefined] on an
    object without it and on arrays, strings, numbers and booleans; on
    [null] the access throws ([None]). *)
Definition js_get (k : string) (data : json) : option (option json) :=
  match data with
  | JObj fields => Some (dict_get k fields)
  | JNull => None
  | _ => Some None
  end.

(** Clicks and keystrokes, and the page they lead to. *)
Inductive gesture :=
| ClickChat
| ClickSummary
| TypeText (text : string).

Definition perform (p : page) (g : gesture) : page :=
  match g with
  | ClickChat => switchMode "chat" p
  | ClickSummary => switchMode "summary" p
  | TypeText text => type_text text p
  end.

Definition page_after (gs : list gesture) : page := foldl perform page_loaded gs.

Section Page.

(** [JSON.parse] of the browser, on the text of a body that is not sent as
    JSON. *)
Variable parse_json : string -> option json.

(** [await res.json()] followed by the read of [data.response] or
    [data.summary]: [None] when either throws. The body of a 422 is an
    object whose one key is [detail]. *)
Definition res_read (k : string) (res : response) : option (option json) :=
  match body res with
  | JsonContent j => js_get k j
  | PlainText t => j ← parse_json t; js_get k j
  | ValidationDetail => Some None
  end.

(** [submit] after its [await fetch(...)]: [mode] is read again here.
    [None]: the promise is rejected and the page stays as it is. *)
Definition submit_done (p : page) (res : response) : option page :=
  v ← res_read (if decide (mode p = "chat") then "response" else "summary") res;
  Some {| mode := mode p; chatBtn_active := chatBtn_active p;
          summaryBtn_active := summaryBtn_active p;
          placeholder := placeholder p; input := input p;
          output := Value v |}.

End Page.

(** ** The load test of [test_concurrent.py] *)

Record url := { url_host : string; url_port : Z; url_path : string }.

(** ['http://localhost:8000/chat'] and ['http://localhost:8000/summarize']. *)
Definition chat_url : url :=
  {| url_host := "localhost"; url_port := 8000; url_path := "/chat" |}.

Definition summarize_url : url :=
  {| url_host := "localhost"; url_port := 8000; url_path := "/summarize" |}.

(** [f'User {user_id}: Tell me a fun fact about space'] *)
Definition chat_prompt (user_id : nat) : string :=
  "User " +:+ pretty user_id +:+ ": Tell me a fun fact about space".

Definition newline : string := String (Ascii.ascii_of_nat 10) EmptyString.

(** The triple-quoted text of [make_summary_request], line by line. *)
Definition text_to_summarize : string :=
  newline +:+
  "    Artificial intelligence is transforming the world in unprecedented ways."
  +:+ newline +:+
  "    From healthcare to transportation, AI systems are being deployed to solve"
  +:+ newline +:+
  "    complex problems. Machine learning algorithms can now diagnose diseases,"
  +:+ newline +:+
  "    drive cars autonomously, and even create art. However, these advances also"
  +:+ newline +:+
  "    raise important ethical questions about privacy, bias, and the future of work."
  +:+ newline +:+ "    ".

(** [json={'text': ...}] *)
Definition chat_body (user_id : nat) : http_body :=
  Some (JObj [("text", JStr (chat_prompt user_id))]).

Definition summary_body : http_body :=
  Some (JObj [("text", JStr text_to_summarize)]).

(** What [session.post] comes to: a response, or an exception (connection
    refused, the 60 s timeout). *)
Inductive exchange :=
| Answered (res : response)
| Failed (err : string).

(** The exception the [except] clause catches. [response.json()] raises
    [ContentTypeError] on a body that is not sent as JSON. *)
Inductive client_exn :=
| ContentTypeError
| ClientError (err : string).

Inductive run_outcome (A : Type) :=
| Finished (a : A)
| ValueError.
Arguments Finished {A} a.
Arguments ValueError {A}.

Section LoadTest.

(** The type of [time.time()] differences, with the float operations the
    statistics use: [sum(...)], [/], [>] and [<]. *)
Variable T : Type.
Variable tsum : list T -> T.
Variable tdiv : T -> Z -> T.
Variable tlt : T -> T -> bool.

(** For each user, the time measured and what the request came to. *)
Variable net : nat -> url -> http_body -> T * exchange.

(** The dict a request function returns: ['user'], ['time'], ['success']
    and ['response'] or ['error']. *)
Record test_result := {
  user : nat;
  elapsed : T;
  success : bool;
  payload : content + client_exn
}.

(** [result = await response.json()] inside [try], and the [except]. *)
Definition make_result (user_id : nat) (t : T) (x : exchange) : test_result :=
  match x with
  | Answered res =>
      match body res with
      | PlainText _ =>
          {| user := user_id; elapsed := t; success := false;
             payload := inr ContentTypeError |}
      | c =>
          {| user := user_id; elapsed := t; success := true;
             payload := inl c |}
      end
  | Failed err =>
      {| user := user_id; elapsed := t; success := false;
         payload := inr (ClientError err) |}
  end.

Definition make_chat_request (user_id : nat) : test_result :=
  let '(t, x) := net user_id chat_url (chat_body user_id) in
  make_result user_id t x.

Definition make_summary_request (user_id : nat) : test_result :=
  let '(t, x) := net user_id summarize_url summary_body in
  make_result user_id t x.

(** [max(...)] and [min(...)] of Python: the first greatest, the first
    least; [None] on an empty sequence, where Python raises [ValueError]. *)
Fixpoint max_from (m : T) (l : list T) : T :=
  match l with
  | [] => m
  | x :: l' => max_from (if tlt m x then x else m) l'
  end.

Fixpoint min_from (m : T) (l : list T) : T :=
  match l with
  | [] => m
  | x :: l' => min_from (if tlt x m then x else m) l'
  end.

Definition py_max (l : list T) : option T :=
  match l with
  | [] => None
  | x :: l' => Some (max_from x l')
  end.

Definition py_min (l : list T) : option T :=
  match l with
  | [] => None
  | x :: l' => Some (min_from x l')
  end.

(** The figures printed under RESULTS. *)
Record statistics := {
  successful : Z;
  failed : Z;
  avg_time : T;
  max_time : T;
  min_time : T
}.

(** [run_concurrent_test(num_users, test_type)]: the results it returns
    and the statistics it prints, or the [ValueError] of [max] and [min]. *)
Definition run_concurrent_test (num_users : Z) (test_type : string)
  : run_outcome (list test_result * statistics) :=
  let tasks :=
    if decide (test_type = "chat")
    then (fun i => make_chat_request (i + 1)) <$> seq 0 (Z.to_nat num_users)
    else (fun i => make_summary_request (i + 1)) <$> seq 0 (Z.to_nat num_users)
  in
  let results := tasks in
  let successful := Z.of_nat (length (filter (fun r => success r = true) results)) in
  let failed := num_users - successful in
  let avg_time :=
    tdiv (tsum (elapsed <$> filter (fun r => success r = true) results))
         (Z.max successful 1) in
  match py_max (elapsed <$> results) with
  | None => ValueError
  | Some max_time =>
      match py_min (elapsed <$> results) with
      | None => ValueError
      | Some min_time =>
          Finished (results,
                    {| successful := successful; failed := failed;
                       avg_time := avg_time; max_time := max_time;
                       min_time := min_time |})
      end
  end.

End LoadTest.

Arguments user {T} _.
Arguments elapsed {T} _.
Arguments success {T} _.
Arguments payload {T} _.
Arguments make_result {T} user_id t x.
Arguments successful {T} _.
Arguments failed {T} _.
Arguments avg_time {T} _.
Arguments max_time {T} _.
Arguments min_time {T} _.

(** ** Stubs for the concrete runs of the page and the load test *)

(** A [JSON.parse] that rejects every text. *)
Definition no_parse (t : string) : option json := None.

(** A server that answers every request at once, with whole seconds on the
    clock. *)
Definition echo_net (user_id : nat) (u : url) (b : http_body) : Z * exchange :=
  (Z.of_nat user_id,
   match route (url_path u) with
   | Some ep => Answered (answer echo_chat_pipe echo_summary_pipe ep b)
   | None => Failed "not found"
   end).

Definition z_sum (l : list Z) : Z := foldr Z.add 0 l.

(** One chat request served up to the resolution of its future. *)
Definition one_resolved : list event :=
  [ Request Chat (text_body "hi"); Pick; Complete 0 ].

(** * Lemmas on the data *)

Lemma take_item_spec rid l w r :
  take_item rid l = Some (w, r) → future w = rid ∧ l ≡ₚ w :: r.
Proof.
  revert w r. induction l as [|x l IH]; intros w r H; simpl in H; [done|].
  destruct (decide (future x = rid)) as [Heq|Hne].
  - by simplify_eq.
  - destruct (take_item rid l) as [[y t]|] eqn:E; simplify_eq/=.
    destruct (IH _ _ eq_refl) as [-> Hp]. split; [done|].
    rewrite Hp. apply Permutation_swap.
Qed.

Lemma take_item_is_Some rid l :
  rid ∈ future <$> l → is_Some (take_item rid l).
Proof.
  induction l as [|x l IH]; simpl; [by intros ?%elem_of_nil|].
  intros [->|Hin]%elem_of_cons.
  - rewrite decide_True; eauto.
  - destruct (decide (future x = rid)); [eauto|].
    destruct (IH Hin) as [[y t] ->]. simpl. eauto.
Qed.

Lemma take_item_length rid l w r :
  take_item rid l = Some (w, r) → length l = S (length r).
Proof. intros [_ Hp]%take_item_spec. by rewrite Hp. Qed.

Lemma submitted_from_snoc n reqs ep b :
  submitted_from n (reqs ++ [(ep, b)]) =
  submitted_from n reqs ++
    match text_field b with
    | Some _ => [(n + length reqs)%nat]
    | None => []
    end.
Proof.
  revert n. induction reqs as [|[ep' b'] reqs IH]; intros n; simpl.
  - rewrite Nat.add_0_r. by destruct (text_field b).
  - rewrite IH, Nat.add_succ_r. simpl.
    by destruct (text_field b').
Qed.

Lemma elem_of_submitted_from n reqs rid :
  rid ∈ submitted_from n reqs ↔
  (n ≤ rid)%nat ∧
  ∃ ep b, reqs !! (rid - n)%nat = Some (ep, b) ∧ is_Some (text_field b).
Proof.
  revert n. induction reqs as [|[ep b] reqs IH]; intros n; simpl.
  - split; [by intros ?%elem_of_nil|]. by intros (_ & ? & ? & ? & _).
  - assert (rid ∈ submitted_from (S n) reqs ↔
            (n < rid)%nat ∧ ∃ ep' b', reqs !! (rid - S n)%nat = Some (ep', b')
                                      ∧ is_Some (text_field b')) as IH'.
    { rewrite IH. done. }
    destruct (text_field b) as [t|] eqn:Ht.
    + rewrite elem_of_cons, IH'. split.
      * intros [->|(Hlt & ep' & b' & Hl & Hs)].
        -- split; [lia|]. exists ep, b. rewrite Nat.sub_diag. simpl.
           rewrite Ht. eauto.
        -- split; [lia|]. exists ep', b'.
           replace (rid - n)%nat with (S (rid - S n)) by lia. done.
      * intros (Hle & ep' & b' & Hl & Hs).
        destruct (decide (rid = n)) as [->|Hne]; [by left|right].
        split; [lia|]. exists ep', b'.
        replace (rid - n)%nat with (S (rid - S n)) in Hl by lia. done.
    + rewrite IH'. split.
      * intros (Hlt & ep' & b' & Hl & Hs). split; [lia|]. exists ep', b'.
        replace (rid - n)%nat with (S (rid - S n)) by lia. done.
      * intros (Hle & ep' & b' & Hl & Hs).
        destruct (decide (rid = n)) as [->|Hne].
        -- rewrite Nat.sub_diag in Hl. simpl in Hl. simplify_eq.
           rewrite Ht in Hs. by destruct Hs.
        -- split; [lia|]. exists ep', b'.
           replace (rid - n)%nat with (S (rid - S n)) in Hl by lia. done.
Qed.

Lemma elem_of_submitted reqs rid :
  rid ∈ submitted reqs ↔
  ∃ ep b, reqs !! rid = Some (ep, b) ∧ is_Some (text_field b).
Proof.
  unfold submitted. rewrite elem_of_submitted_from, Nat.sub_0_r.
  split; [by intros [_ ?]|]. intros ?. split; [lia|done].
Qed.

Lemma submitted_from_sorted n reqs :
  StronglySorted lt (submitted_from n reqs).
Proof.
  revert n. induction reqs as [|[ep b] reqs IH]; intros n; simpl.
  - constructor.
  - destruct (text_field b); [|done].
    constructor; [done|]. apply Forall_forall. intros x Hx.
    apply elem_of_submitted_from in Hx. lia.
Qed.

Lemma submitted_sorted reqs : StronglySorted lt (submitted reqs).
Proof. apply submitted_from_sorted. Qed.

Lemma sorted_lt_NoDup (l : list nat) : StronglySorted lt l → NoDup l.
Proof.
  induction 1 as [|x l Hs IH Hall]; constructor; [|done].
  intros Hin. rewrite Forall_forall in Hall. specialize (Hall _ Hin). lia.
Qed.

Lemma submitted_NoDup reqs : NoDup (submitted reqs).
Proof. apply sorted_lt_NoDup, submitted_sorted. Qed.

Lemma sorted_lt_lookup (l : list nat) i j a b :
  StronglySorted lt l → (i < j)%nat →
  l !! i = Some a → l !! j = Some b → (a < b)%nat.
Proof.
  intros Hs. revert i j. induction Hs as [|x l Hs IH Hall]; intros i j Hij Hi Hj.
  - by rewrite lookup_nil in Hi.
  - destruct j as [|j]; [lia|]. simpl in Hj. destruct i as [|i].
    + simpl in Hi. simplify_eq. rewrite Forall_forall in Hall.
      apply Hall. by eapply list_elem_of_lookup_2.
    + simpl in Hi. apply (IH i j); [lia|done..].
Qed.

Lemma sorted_lt_lookup_inv (l : list nat) i j a b :
  StronglySorted lt l → l !! i = Some a → l !! j = Some b →
  (a < b)%nat → (i < j)%nat.
Proof.
  intros Hs Hi Hj Hab. destruct (decide (i < j)%nat) as [|Hge]; [done|].
  destruct (decide (i = j)) as [->|Hne]; [simplify_eq; lia|].
  assert (b < a)%nat; [|lia].
  apply (sorted_lt_lookup l j i); [done|lia|done..].
Qed.

Lemma filter_none {A} (P : A → Prop) `{!∀ x, Decision (P x)} (l : list A) :
  (∀ x, x ∈ l → ¬ P x) → filter P l = [].
Proof.
  induction l as [|x l IH]; intros Hall; [done|].
  rewrite filter_cons_False by (apply Hall; by left).
  apply IH. intros y Hy. apply Hall. by right.
Qed.

Lemma filter_key_unique {A} (l : list (nat * A)) k v :
  NoDup l.*1 → (k, v) ∈ l → filter (fun p => p.1 = k) l = [(k, v)].
Proof.
  induction l as [|[k' v'] l IH]; [by intros _ ?%elem_of_nil|].
  simpl. intros [Hnotin Hnd]%NoDup_cons [Heq|Hin]%elem_of_cons.
  - injection Heq as <- <-. rewrite filter_cons_True by done. f_equal.
    apply filter_none. intros [k'' v''] Hin Hk.
    simpl in Hk. subst. apply Hnotin. apply list_elem_of_fmap.
    by exists (k, v'').
  - rewrite filter_cons_False; [by apply IH|].
    simpl. intros ->. apply Hnotin. apply list_elem_of_fmap. by exists (k, v).
Qed.


(** * The invariant of the process *)

Section ServerProofs.

Variable chat_pipe : string -> generation_kwargs -> outcome pipe_output.
Variable summary_pipe : string -> summarization_kwargs -> outcome pipe_output.

Local Abbreviation run_chat := (run_chat chat_pipe summary_pipe).
Local Abbreviation run_summarize := (run_summarize chat_pipe summary_pipe).
Local Abbreviation run_task := (run_task chat_pipe summary_pipe).
Local Abbreviation backend := (backend chat_pipe summary_pipe).
Local Abbreviation answer := (answer chat_pipe summary_pipe).
Local Abbreviation exec := (exec chat_pipe summary_pipe).
Local Abbreviation run := (run chat_pipe summary_pipe).
Local Abbreviation reachable := (reachable chat_pipe summary_pipe).
Local Abbreviation invariant := (invariant chat_pipe summary_pipe).

Lemma answer_eq ep b :
  answer ep b =
  match text_field b with
  | None => rejection b
  | Some text => resume ep (run_task ep text)
  end.
Proof. reflexivity. Qed.

Lemma run_cons s e tr : run s (e :: tr) = s' ← exec s e; run s' tr.
Proof. reflexivity. Qed.

Lemma item_ok_app reqs more w : item_ok reqs w → item_ok (reqs ++ more) w.
Proof.
  intros (b & Hl & Ht). exists b. split; [|done].
  by apply lookup_app_l_Some.
Qed.

Lemma item_ok_new reqs ep b text :
  text_field b = Some text →
  item_ok (reqs ++ [(ep, b)])
          {| future := length reqs; fn := ep; arg := text |}.
Proof.
  intros Ht. exists b. simpl. split; [|done].
  by rewrite list_lookup_middle.
Qed.

Lemma item_ok_agree reqs w w' :
  item_ok reqs w → item_ok reqs w' → future w = future w' → w = w'.
Proof.
  intros (b & Hl & Ht) (b' & Hl' & Ht') Heq.
  destruct w, w'; simpl in *; subst. congruence.
Qed.

Lemma invariant_init : invariant init.
Proof.
  constructor; simpl; try done.
  - intros ?? []%elem_of_nil.
  - unfold running_ids, pick_order. simpl. intros rid. split.
    + by intros ?%elem_of_nil.
    + by intros [?%elem_of_nil _].
  - constructor.
  - unfold max_workers. lia.
  - intros ?? []%elem_of_nil.
Qed.

Lemma invariant_request s ep b s' :
  invariant s → exec s (Request ep b) = Some s' → invariant s'.
Proof.
  intros [Hq Hr Ha Ht Hc Hf Ho Hn Hw Hrs Hp] He. simpl in He.
  assert (∀ rid x, requests s !! rid = Some x →
                   (requests s ++ [(ep, b)]) !! rid = Some x) as Hold.
  { intros ???. by apply lookup_app_l_Some. }
  destruct (text_field b) as [text|] eqn:Hb; simplify_eq;
    constructor; simpl;
    unfold pick_order, queue_ids, running_ids, awaiting_ids, responded_ids
      in *; simpl.
  - apply Forall_app. split; [|repeat constructor; by apply item_ok_new].
    eapply Forall_impl; [done|]. intros. by apply item_ok_app.
  - eapply Forall_impl; [done|]. intros. by apply item_ok_app.
  - apply Forall_app. split; [|repeat constructor; by apply item_ok_new].
    eapply Forall_impl; [done|]. intros. by apply item_ok_app.
  - unfold submitted. rewrite submitted_from_snoc, Hb, fmap_app, app_assoc.
    simpl. by rewrite Ht.
  - intros rid c Hin. destruct (Hc _ _ Hin) as (?&?&?&?&?&?). eauto 10.
  - intros rid o Hl. destruct (Hf _ _ Hl) as (?&?&?&?&?&?&?). eauto 10.
  - done.
  - done.
  - done.
  - intros rid resp Hin. destruct (Hrs _ _ Hin) as (?&?&?&?). eauto 10.
  - intros rid ep' b' [Hl|[Hge Hl]]%lookup_app_Some.
    + destruct (Hp _ _ _ Hl) as [Hin|Hin]; [left|by right].
      rewrite fmap_app. apply elem_of_app. by left.
    + left. rewrite fmap_app. apply elem_of_app. right.
      apply list_lookup_singleton_Some in Hl as [Hz _].
      assert (rid = length (requests s)) as -> by lia.
      simpl. apply list_elem_of_singleton. done.
  - eapply Forall_impl; [done|]. intros. by apply item_ok_app.
  - eapply Forall_impl; [done|]. intros. by apply item_ok_app.
  - eapply Forall_impl; [done|]. intros. by apply item_ok_app.
  - unfold submitted. rewrite submitted_from_snoc, Hb, app_nil_r.
    by rewrite Ht.
  - intros rid c Hin. destruct (Hc _ _ Hin) as (?&?&?&?&?&?). eauto 10.
  - intros rid o Hl. destruct (Hf _ _ Hl) as (?&?&?&?&?&?&?). eauto 10.
  - done.
  - done.
  - done.
  - intros rid resp [Hin|Hin]%elem_of_app.
    + destruct (Hrs _ _ Hin) as (?&?&?&?). eauto 10.
    + apply list_elem_of_singleton in Hin. simplify_eq.
      exists ep, b. rewrite list_lookup_middle by done.
      split; [done|]. rewrite answer_eq. by rewrite Hb.
  - intros rid ep' b' [Hl|[Hge Hl]]%lookup_app_Some.
    + destruct (Hp _ _ _ Hl) as [Hin|Hin]; [by left|right].
      rewrite fmap_app. apply elem_of_app. by left.
    + right. rewrite fmap_app. apply elem_of_app. right.
      apply list_lookup_singleton_Some in Hl as [Hz _].
      assert (rid = length (requests s)) as -> by lia.
      simpl. apply list_elem_of_singleton. done.
Qed.

Lemma timeline_NoDup s : invariant s → NoDup (pick_order s ++ queue_ids s).
Proof. intros Hi. rewrite (inv_timeline _ _ _ Hi). apply submitted_NoDup. Qed.

Lemma invariant_pick s s' :
  invariant s → exec s Pick = Some s' → invariant s'.
Proof.
  intros Hi He. pose proof (timeline_NoDup _ Hi) as Hnd.
  destruct Hi as [Hq Hr Ha Ht Hc Hf Ho Hn Hw Hrs Hp]. simpl in He.
  destruct (work_queue s) as [|w q] eqn:Hwq; [done|].
  destruct (decide (length (running s) < max_workers)%nat) as [Hlt|];
    [|done].
  simplify_eq. apply Forall_cons in Hq as [Hwok Hq].
  unfold queue_ids in Hnd, Ht. rewrite Hwq in Hnd, Ht. simpl in Hnd, Ht.
  apply NoDup_app in Hnd as (Hnd1 & Hnd2 & Hnd3).
  assert (future w ∉ pick_order s) as Hfresh.
  { intros Hin. apply (Hnd2 _ Hin). by left. }
  assert (futures s !! future w = None) as Hnone.
  { destruct (futures s !! future w) eqn:E; [|done].
    by destruct (Hf _ _ E) as [? _]. }
  constructor; simpl;
    unfold pick_order, queue_ids, running_ids, awaiting_ids, responded_ids
      in *; simpl; try done.
  - apply Forall_app. split; [done|]. by repeat constructor.
  - rewrite fmap_app, <- app_assoc. simpl. exact Ht.
  - intros rid c [Hin|Hin]%elem_of_app; [by apply Hc|].
    apply list_elem_of_singleton in Hin. simplify_eq.
    destruct Hwok as (b & Hl & Hb). eauto 10.
  - intros rid o Hl. destruct (Hf _ _ Hl) as [Hin Hx]. split; [|done].
    rewrite fmap_app. apply elem_of_app. by left.
  - intros rid. rewrite !fmap_app, !elem_of_app. simpl.
    rewrite !list_elem_of_singleton, Ho. split.
    + intros [[? ?]| ->]; [by auto|]. by auto.
    + intros [[?| ->] ?]; [left|right]; done.
  - rewrite fmap_app. apply NoDup_app. split; [done|]. split.
    + intros x Hx ->%list_elem_of_singleton. apply Ho in Hx as [? _]. done.
    + simpl. apply NoDup_singleton.
  - rewrite length_app. simpl. unfold max_workers in *. lia.
Qed.

Lemma invariant_complete s rid s' :
  invariant s → exec s (Complete rid) = Some s' → invariant s'.
Proof.
  intros [Hq Hr Ha Ht Hc Hf Ho Hn Hw Hrs Hp] He. simpl in He.
  destruct (take_item rid (running s)) as [[w rest]|] eqn:Hti; [|done].
  simplify_eq/=. apply take_item_spec in Hti as [<- Hperm].
  assert (running_ids s ≡ₚ future w :: (future <$> rest)) as Hperm'.
  { unfold running_ids. by rewrite Hperm. }
  rewrite Hperm in Hr. apply Forall_cons in Hr as [Hwok Hr].
  rewrite Hperm' in Hn. apply NoDup_cons in Hn as [Hnotin Hn].
  constructor; simpl;
    unfold pick_order, queue_ids, running_ids, awaiting_ids, responded_ids
      in *; simpl; try done.
  - intros rid o Hl. destruct (decide (rid = future w)) as [->|Hne].
    + rewrite lookup_insert_eq in Hl. simplify_eq. split.
      * apply Ho. rewrite Hperm'. by left.
      * destruct Hwok as (b & Hlb & Hb). eauto 10.
    + rewrite lookup_insert_ne in Hl by done. by apply Hf.
  - intros rid. split.
    + intros Hin. assert (rid ≠ future w) by (by intros ->).
      rewrite lookup_insert_ne by done. apply Ho. rewrite Hperm'.
      by right.
    + intros [Hin Hnone]. destruct (decide (rid = future w)) as [->|Hne].
      { by rewrite lookup_insert_eq in Hnone. }
      rewrite lookup_insert_ne in Hnone by done.
      assert (rid ∈ future <$> running s) as Hrun by (by apply Ho).
      rewrite Hperm' in Hrun. apply elem_of_cons in Hrun as [?|?]; done.
  - rewrite Hperm in Hw. simpl in Hw. lia.
Qed.

Lemma invariant_respond s rid s' :
  invariant s → exec s (Respond rid) = Some s' → invariant s'.
Proof.
  intros [Hq Hr Ha Ht Hc Hf Ho Hn Hw Hrs Hp] He. simpl in He.
  destruct (take_item rid (awaiting s)) as [[w rest]|] eqn:Hti; [|done].
  simpl in He. destruct (futures s !! rid) as [result|] eqn:Hfut; [|done].
  simplify_eq/=. apply take_item_spec in Hti as [<- Hperm].
  rewrite Hperm in Ha. apply Forall_cons in Ha as [Hwok Ha].
  constructor; simpl;
    unfold pick_order, queue_ids, running_ids, awaiting_ids, responded_ids
      in *; simpl; try done.
  - intros rid resp [Hin|Hin]%elem_of_app; [by apply Hrs|].
    apply list_elem_of_singleton in Hin. simplify_eq.
    destruct Hwok as (b & Hl & Hb).
    destruct (Hf _ _ Hfut) as (_ & ep' & b' & text' & Hl' & Hb' & ->).
    simplify_eq. exists (fn w), b. split; [done|].
    rewrite answer_eq. by rewrite Hb.
  - intros rid ep b Hl. rewrite fmap_app, elem_of_app. simpl.
    rewrite list_elem_of_singleton.
    destruct (Hp _ _ _ Hl) as [Hin|Hin]; [|by auto].
    rewrite Hperm in Hin. simpl in Hin.
    apply elem_of_cons in Hin as [->|Hin]; auto.
Qed.

Lemma invariant_exec s e s' :
  invariant s → exec s e = Some s' → invariant s'.
Proof.
  destruct e; eauto using invariant_request, invariant_pick,
    invariant_complete, invariant_respond.
Qed.

Lemma invariant_run tr : ∀ s s',
  invariant s → run s tr = Some s' → invariant s'.
Proof.
  induction tr as [|e tr IH]; intros s s' Hi Hr; simpl in Hr.
  - by simplify_eq.
  - destruct (exec s e) as [s1|] eqn:He; [|done]. simpl in Hr.
    eauto using invariant_exec.
Qed.

Lemma reachable_invariant s : reachable s → invariant s.
Proof. intros [tr Hr]. eauto using invariant_run, invariant_init. Qed.

Lemma run_app tr1 tr2 s :
  run s (tr1 ++ tr2) = s1 ← run s tr1; run s1 tr2.
Proof.
  revert s. induction tr1 as [|e tr1 IH]; intros s; simpl; [done|].
  destruct (exec s e); simpl; [apply IH|done].
Qed.

Lemma reachable_run s tr s' :
  reachable s → run s tr = Some s' → reachable s'.
Proof.
  intros [tr0 H0] Hr. exists (tr0 ++ tr). rewrite run_app, H0. done.
Qed.

(** ** What a step keeps *)

Lemma exec_mono s e s' :
  exec s e = Some s' →
  requests s `prefix_of` requests s' ∧
  responses s `prefix_of` responses s' ∧
  backend_calls s `prefix_of` backend_calls s'.
Proof.
  destruct e as [ep b| |rid|rid]; simpl; intros He.
  - destruct (text_field b); simplify_eq/=;
      repeat split; try done; by apply prefix_app_r.
  - destruct (work_queue s) as [|w q]; [done|].
    case_decide; simplify_eq/=. repeat split; try done.
    by apply prefix_app_r.
  - destruct (take_item rid (running s)) as [[w rest]|]; simplify_eq/=.
    done.
  - destruct (take_item rid (awaiting s)) as [[w rest]|]; simplify_eq/=.
    destruct (futures s !! rid); simplify_eq/=. repeat split; try done.
    by apply prefix_app_r.
Qed.

Lemma run_mono tr : ∀ s s',
  run s tr = Some s' →
  requests s `prefix_of` requests s' ∧
  responses s `prefix_of` responses s' ∧
  backend_calls s `prefix_of` backend_calls s'.
Proof.
  induction tr as [|e tr IH]; intros s s' Hr; simpl in Hr.
  - by simplify_eq.
  - destruct (exec s e) as [s1|] eqn:He; [|done]. simpl in Hr.
    destruct (exec_mono _ _ _ He) as (?&?&?).
    destruct (IH _ _ Hr) as (?&?&?).
    repeat split; by etrans.
Qed.

Lemma elem_of_prefix {A} (l k : list A) x : l `prefix_of` k → x ∈ l → x ∈ k.
Proof. intros [m ->] Hin. apply elem_of_app. by left. Qed.

Lemma lookup_prefix {A} (l k : list A) i x :
  l `prefix_of` k → l !! i = Some x → k !! i = Some x.
Proof. intros [m ->] Hl. by apply lookup_app_l_Some. Qed.

(** ** Steps that can always be taken *)

Lemma take_item_own reqs l w :
  Forall (item_ok reqs) l → w ∈ l →
  ∃ rest, take_item (future w) l = Some (w, rest).
Proof.
  intros Hall Hin.
  destruct (take_item_is_Some (future w) l) as [[w' rest] Hti].
  { by apply list_elem_of_fmap_2. }
  exists rest. rewrite Hti. do 2 f_equal.
  destruct (take_item_spec _ _ _ _ Hti) as [Hid Hperm].
  rewrite Forall_forall in Hall.
  apply (item_ok_agree reqs); [apply Hall|by apply Hall|done].
  rewrite Hperm. by left.
Qed.

Lemma make_room s :
  invariant s →
  ∃ tr s', run s tr = Some s' ∧ picks tr = 0%nat ∧
           (length (running s') < max_workers)%nat ∧
           work_queue s' = work_queue s ∧ awaiting s' = awaiting s.
Proof.
  intros Hi.
  destruct (decide (length (running s) < max_workers)%nat) as [Hlt|Hge].
  { exists [], s. done. }
  destruct (running s) as [|r rest] eqn:Hrun.
  { simpl in Hge. unfold max_workers in Hge. lia. }
  pose proof (inv_workers _ _ _ Hi) as Hw. rewrite Hrun in Hw.
  exists [Complete (future r)]. simpl. rewrite Hrun. simpl.
  rewrite decide_True by done. simpl. eexists. split; [done|]. simpl.
  repeat split; try done; simpl in Hw; lia.
Qed.

Lemma pick_head s w q :
  invariant s → work_queue s = w :: q →
  ∃ tr s', run s tr = Some s' ∧ picks tr = 1%nat ∧
           work_queue s' = q ∧ w ∈ running s' ∧ awaiting s' = awaiting s.
Proof.
  intros Hi Hq.
  destruct (make_room s Hi) as (tr & s1 & Hr & Hp & Hlt & Hq1 & Ha1).
  exists (tr ++ [Pick]). rewrite run_app, Hr. simpl.
  rewrite Hq1, Hq. rewrite decide_True by done. simpl.
  eexists. split; [done|]. simpl. repeat split; try done.
  - unfold picks in *. rewrite filter_app, length_app, Hp. done.
  - apply elem_of_app. right. by left.
Qed.

Lemma pick_nth q1 : ∀ s w q2,
  invariant s → work_queue s = q1 ++ w :: q2 →
  ∃ tr s', run s tr = Some s' ∧ work_queue s' = q2 ∧
           w ∈ running s' ∧ awaiting s' = awaiting s.
Proof.
  induction q1 as [|x q1 IH]; intros s w q2 Hi Hq.
  - destruct (pick_head s w q2 Hi Hq) as (tr & s' & ? & ? & ? & ? & ?).
    eauto 10.
  - destruct (pick_head s x (q1 ++ w :: q2) Hi Hq)
      as (tr & s1 & Hr & _ & Hq1 & _ & Ha1).
    destruct (IH s1 w q2) as (tr' & s' & Hr' & ? & ? & Ha');
      [by eapply invariant_run|done|].
    exists (tr ++ tr'), s'. rewrite run_app, Hr. simpl.
    repeat split; try done. congruence.
Qed.

Lemma respond_resolved s w :
  invariant s → w ∈ awaiting s → is_Some (futures s !! future w) →
  ∃ s', exec s (Respond (future w)) = Some s' ∧
        (future w, resume (fn w) (run_task (fn w) (arg w))) ∈ responses s'.
Proof.
  intros Hi Hin [o Ho].
  destruct (take_item_own _ _ _ (inv_awaiting _ _ _ Hi) Hin) as [rest Hti].
  simpl. rewrite Hti. simpl. rewrite Ho. simpl. eexists. split; [done|].
  simpl. apply elem_of_app. right.
  destruct (inv_futures _ _ _ Hi _ _ Ho) as (_ & ep & b & text & Hl & Hb & ->).
  pose proof (inv_awaiting _ _ _ Hi) as Hall. rewrite Forall_forall in Hall.
  destruct (Hall _ Hin) as (b' & Hl' & Hb'). simplify_eq.
  by left.
Qed.

Lemma finish_running s w :
  invariant s → w ∈ running s → w ∈ awaiting s →
  ∃ tr s', run s tr = Some s' ∧
           (future w, resume (fn w) (run_task (fn w) (arg w))) ∈ responses s'.
Proof.
  intros Hi Hrun Haw.
  destruct (take_item_own _ _ _ (inv_running _ _ _ Hi) Hrun) as [rest Hti].
  destruct (exec s (Complete (future w))) as [s1|] eqn:He;
    [|by simpl in He; rewrite Hti in He].
  assert (invariant s1) as Hi1 by eauto using invariant_exec.
  simpl in He. rewrite Hti in He. simplify_eq/=.
  edestruct (respond_resolved _ w Hi1) as (s' & He' & Hin); [done| |].
  { simpl. rewrite lookup_insert_eq. eauto. }
  exists [Complete (future w); Respond (future w)], s'. split; [|done].
  rewrite !run_cons. simpl. rewrite Hti. simpl.
  simpl in He'. by rewrite He'.
Qed.

(** Every request the process has read can be answered, and with the
    answer of its own handler. *)
Lemma can_answer s rid ep b :
  invariant s → requests s !! rid = Some (ep, b) →
  ∃ tr s', run s tr = Some s' ∧ (rid, answer ep b) ∈ responses s'.
Proof.
  intros Hi Hl.
  destruct (inv_pending _ _ _ Hi _ _ _ Hl) as [Hin|Hin].
  - apply list_elem_of_fmap in Hin as (w & -> & Hw).
    pose proof (inv_awaiting _ _ _ Hi) as Hall. rewrite Forall_forall in Hall.
    destruct (Hall _ Hw) as (b' & Hl' & Hb'). simplify_eq.
    assert (answer (fn w) b = resume (fn w) (run_task (fn w) (arg w))) as ->.
    { rewrite answer_eq. by rewrite Hb'. }
    destruct (futures s !! future w) as [o|] eqn:Hfut.
    { destruct (respond_resolved s w Hi Hw) as (s' & He & Hr); [eauto|].
      exists [Respond (future w)], s'. split; [|done].
      rewrite run_cons. by rewrite He. }
    assert (future w ∈ submitted (requests s)) as Hsub.
    { apply elem_of_submitted. eauto 10. }
    rewrite <- (inv_timeline _ _ _ Hi) in Hsub.
    apply elem_of_app in Hsub as [Hpk|Hqu].
    + assert (future w ∈ running_ids s) as Hrun.
      { by apply (inv_occupied _ _ _ Hi). }
      apply list_elem_of_fmap in Hrun as (w' & Heq & Hw').
      assert (w = w') as <-.
      { pose proof (inv_running _ _ _ Hi) as Hr.
        rewrite Forall_forall in Hr.
        eapply item_ok_agree; [by apply Hall|by apply Hr|done]. }
      by apply finish_running.
    + apply list_elem_of_fmap in Hqu as (w' & Heq & Hw').
      assert (w = w') as <-.
      { pose proof (inv_queue _ _ _ Hi) as Hr.
        rewrite Forall_forall in Hr.
        eapply item_ok_agree; [by apply Hall|by apply Hr|done]. }
      apply list_elem_of_split in Hw' as (q1 & q2 & Hq).
      destruct (pick_nth q1 s w q2 Hi Hq) as (tr & s1 & Hr & _ & Hrun & Ha).
      destruct (finish_running s1 w) as (tr' & s' & Hr' & Hresp);
        [by eapply invariant_run|done|by rewrite Ha|].
      exists (tr ++ tr'), s'. rewrite run_app, Hr. done.
  - apply list_elem_of_fmap in Hin as ([rid' resp] & -> & Hresp).
    destruct (inv_responses _ _ _ Hi _ _ Hresp) as (ep' & b' & Hl' & ->).
    simpl in *. simplify_eq. exists [], s. done.
Qed.

(** ** Answers come after the future *)

Lemma resolved_exec s e s' :
  invariant s → responses_resolved s → exec s e = Some s' →
  responses_resolved s'.
Proof.
  intros Hi HP He rid resp ep b Hin Hl Hb.
  destruct e as [ep0 b0| |rid0|rid0]; simpl in He.
  - assert (∀ resp, (rid, resp) ∈ responses s →
                    is_Some (futures s !! rid)) as Hold.
    { intros resp' Hin'.
      destruct (inv_responses _ _ _ Hi _ _ Hin') as (ep' & b' & Hl' & _).
      assert (requests s !! rid = Some (ep, b)) as Hl''.
      { destruct (text_field b0); simplify_eq/=;
          rewrite (lookup_app_l_Some _ _ _ _ Hl') in Hl; by simplify_eq. }
      eauto. }
    destruct (text_field b0) eqn:Hb0; simplify_eq/=; [by eauto|].
    apply elem_of_app in Hin as [Hin|Hin]; [by eauto|].
    apply list_elem_of_singleton in Hin. simplify_eq.
    rewrite list_lookup_middle in Hl by done. simplify_eq.
    rewrite Hb0 in Hb. by destruct Hb.
  - destruct (work_queue s) as [|w q]; [done|].
    case_decide; simplify_eq/=. eauto.
  - destruct (take_item rid0 (running s)) as [[w rest]|]; simplify_eq/=.
    destruct (decide (rid = rid0)) as [->|Hne].
    + rewrite lookup_insert_eq. eauto.
    + rewrite lookup_insert_ne by done. eauto.
  - destruct (take_item rid0 (awaiting s)) as [[w rest]|]; simplify_eq/=.
    destruct (futures s !! rid0) eqn:Hfut; simplify_eq/=.
    apply elem_of_app in Hin as [Hin|Hin]; [by eauto|].
    apply list_elem_of_singleton in Hin. simplify_eq. eauto.
Qed.

Lemma resolved_run tr : ∀ s s',
  invariant s → responses_resolved s → run s tr = Some s' →
  responses_resolved s'.
Proof.
  induction tr as [|e tr IH]; intros s s' Hi HP Hr; simpl in Hr.
  - by simplify_eq.
  - destruct (exec s e) as [s1|] eqn:He; [|done]. simpl in Hr.
    eauto using invariant_exec, resolved_exec.
Qed.

Lemma reachable_resolved s : reachable s → responses_resolved s.
Proof.
  intros [tr Hr]. eapply resolved_run; [apply invariant_init| |done].
  intros ???? []%elem_of_nil.
Qed.

(** ** The calls made for a request *)

Lemma pick_order_NoDup s : invariant s → NoDup (pick_order s).
Proof. intros Hi. by apply timeline_NoDup, NoDup_app in Hi as [? _]. Qed.


Lemma calls_picked s rid ep b text :
  invariant s → rid ∈ pick_order s →
  requests s !! rid = Some (ep, b) → text_field b = Some text →
  calls_of_request rid s = [call_of ep text].
Proof.
  intros Hi Hin Hl Hb.
  apply list_elem_of_fmap in Hin as ([rid' c] & -> & Hin). simpl in *.
  destruct (inv_calls _ _ _ Hi _ _ Hin) as (ep' & b' & text' & ? & ? & ->).
  simplify_eq. unfold calls_of_request.
  rewrite (filter_key_unique _ rid' (call_of ep text)); [done| |done].
  by apply pick_order_NoDup.
Qed.



Lemma calls_answered s rid ep b text resp :
  reachable s → (rid, resp) ∈ responses s →
  requests s !! rid = Some (ep, b) → text_field b = Some text →
  calls_of_request rid s = [call_of ep text].
Proof.
  intros Hre Hin Hl Hb. pose proof (reachable_invariant _ Hre) as Hi.
  destruct (reachable_resolved _ Hre _ _ _ _ Hin Hl) as [o Ho];
    [by rewrite Hb|].
  destruct (inv_futures _ _ _ Hi _ _ Ho) as [Hpk _].
  by eapply calls_picked.
Qed.

Lemma answer_unique s rid ep b resp :
  invariant s → requests s !! rid = Some (ep, b) →
  (rid, resp) ∈ responses s → resp = answer ep b.
Proof.
  intros Hi Hl Hin.
  destruct (inv_responses _ _ _ Hi _ _ Hin) as (ep' & b' & Hl' & ->).
  by simplify_eq.
Qed.

(** ** The backend is entered from a worker slot only *)

Lemma in_backend_running s rid :
  invariant s → rid ∈ in_backend s ↔ rid ∈ running_ids s.
Proof.
  intros Hi. unfold in_backend. rewrite list_elem_of_filter.
  rewrite (inv_occupied _ _ _ Hi). tauto.
Qed.

Lemma in_backend_perm s : invariant s → in_backend s ≡ₚ running_ids s.
Proof.
  intros Hi. apply NoDup_Permutation.
  - apply NoDup_filter. by apply pick_order_NoDup.
  - by apply (inv_running_nodup _ _ _ Hi).
  - intros rid. by apply in_backend_running.
Qed.

Lemma in_backend_bound s :
  invariant s → (length (in_backend s) ≤ max_workers)%nat.
Proof.
  intros Hi. rewrite (in_backend_perm _ Hi). unfold running_ids.
  rewrite length_fmap. by apply (inv_workers _ _ _ Hi).
Qed.

(** ** The queue is served in the order of submission *)

Lemma timeline_exec s e s' :
  exec s e = Some s' →
  (∃ new, pick_order s' ++ queue_ids s' =
          (pick_order s ++ queue_ids s) ++ new) ∧
  length (pick_order s') =
    (length (pick_order s) + (if is_pick e then 1 else 0))%nat.
Proof.
  unfold pick_order, queue_ids.
  destruct e as [ep b| |rid|rid]; simpl; intros He.
  - destruct (text_field b); simplify_eq/=.
    + split; [|lia]. eexists. by rewrite fmap_app, app_assoc.
    + split; [|lia]. exists []. by rewrite app_nil_r.
  - destruct (work_queue s) as [|w q]; [done|].
    case_decide; simplify_eq/=. split.
    + exists []. by rewrite fmap_app, app_nil_r, <- app_assoc.
    + by rewrite fmap_app, length_app.
  - destruct (take_item rid (running s)) as [[w rest]|]; simplify_eq/=.
    split; [|lia]. exists []. by rewrite app_nil_r.
  - destruct (take_item rid (awaiting s)) as [[w rest]|]; simplify_eq/=.
    destruct (futures s !! rid); simplify_eq/=.
    split; [|lia]. exists []. by rewrite app_nil_r.
Qed.

Lemma timeline_run tr : ∀ s s',
  run s tr = Some s' →
  (∃ new, pick_order s' ++ queue_ids s' =
          (pick_order s ++ queue_ids s) ++ new) ∧
  length (pick_order s') = (length (pick_order s) + picks tr)%nat.
Proof.
  induction tr as [|e tr IH]; intros s s' Hr; simpl in Hr.
  - simplify_eq. split; [|unfold picks; simpl; lia].
    exists []. by rewrite app_nil_r.
  - destruct (exec s e) as [s1|] eqn:He; [|done]. simpl in Hr.
    destruct (timeline_exec _ _ _ He) as [[new1 H1] Hlen1].
    destruct (IH _ _ Hr) as [[new2 H2] Hlen2]. split.
    + exists (new1 ++ new2). by rewrite H2, H1, app_assoc.
    + rewrite Hlen2, Hlen1. unfold picks. rewrite filter_cons.
      destruct (decide (is_pick e)) as [Hp|Hp]; destruct (is_pick e);
        simpl in *; done || lia.
Qed.

(** ** A request from arrival to answer *)

Lemma exec_request s ep b :
  ∃ s1, exec s (Request ep b) = Some s1 ∧
        requests s1 = requests s ++ [(ep, b)] ∧
        running s1 = running s ∧ futures s1 = futures s ∧
        backend_calls s1 = backend_calls s ∧
        work_queue s `prefix_of` work_queue s1 ∧
        awaiting s `prefix_of` awaiting s1.
Proof.
  simpl. destruct (text_field b); eexists; (split; [done|]); simpl;
    repeat split; try done; by apply prefix_app_r.
Qed.

Lemma request_served s ep b :
  reachable s →
  (∃ tr s', run s (Request ep b :: tr) = Some s' ∧
            (length (requests s), answer ep b) ∈ responses s') ∧
  (∀ tr s', run s (Request ep b :: tr) = Some s' →
            reachable s' ∧
            requests s' !! length (requests s) = Some (ep, b)).
Proof.
  intros Hre. destruct (exec_request s ep b) as (s1 & He & Hreq & _).
  assert (requests s1 !! length (requests s) = Some (ep, b)) as Hl.
  { rewrite Hreq. by apply list_lookup_middle. }
  assert (reachable s1) as Hre1.
  { apply (reachable_run s [Request ep b]); [done|].
    rewrite run_cons. by rewrite He. }
  split.
  - destruct (can_answer s1 _ _ _ (reachable_invariant _ Hre1) Hl)
      as (tr & s' & Hr & Hin).
    exists tr, s'. rewrite run_cons. rewrite He. done.
  - intros tr s' Hr. rewrite run_cons in Hr. rewrite He in Hr.
    simpl in Hr. split; [by eapply reachable_run|].
    destruct (run_mono _ _ _ Hr) as (Hp & _). by eapply lookup_prefix.
Qed.

Lemma running_of_split s :
  (length (running_of Chat s) + length (running_of Summarize s))%nat =
  length (running s).
Proof.
  unfold running_of. induction (running s) as [|w l IH]; [done|].
  rewrite !filter_cons. destruct (fn w);
    repeat case_decide; simplify_eq; simpl; lia.
Qed.

Lemma pick_enabled s :
  work_queue s ≠ [] →
  is_Some (exec s Pick) ↔ (length (running s) < max_workers)%nat.
Proof.
  intros Hne. simpl. destruct (work_queue s) as [|w q]; [done|].
  case_decide; split; intros H'; try done; by eauto.
Qed.

Lemma run_chat_eq text :
  run_chat text =
  (out ← backend (chat_call text); d ← item out 0; getitem d "generated_text").
Proof. reflexivity. Qed.

Lemma run_summarize_eq text :
  run_summarize text =
  (out ← backend (summarize_call text); d ← item out 0;
   getitem d "summary_text").
Proof. reflexivity. Qed.

Lemma first_entry_returns (o : outcome pipe_output) k r :
  (out ← o; d ← item out 0; getitem d k) = Returns r ↔
  ∃ d rest, o = Returns (d :: rest) ∧ d !! k = Some r.
Proof.
  destruct o as [[|d rest]|e]; simpl; unfold item, getitem; simpl.
  - split; [done|]. by intros (?&?&?&?).
  - destruct (d !! k) as [v|] eqn:Hk.
    + split; [intros [= ->]; eauto|].
      intros (d' & rest' & [= <- <-] & Hk'). congruence.
    + split; [done|]. intros (d' & rest' & [= <- <-] & Hk'). congruence.
  - split; [done|]. by intros (?&?&?&?).
Qed.

Lemma summarize_answer_eq b text :
  text_field b = Some text →
  answer Summarize b =
  to_response
    (summarize
       (out ← summary_pipe text
                {| max_length := 130; min_length := 30; do_sample := false |};
        d ← item out 0;
        getitem d "summary_text")).
Proof. intros Hb. rewrite answer_eq, Hb. reflexivity. Qed.


(** * The claims *)

(** C2: for a valid POST /chat whose body carries the text [text], when
    the generation pipeline called on [text] with [max_new_tokens=100] and
    [return_full_text=False] returns a list whose first dict has [r] under
    [generated_text], the request can be answered, and whenever it is
    answered the answer is HTTP 200 with the JSON object [{"response": r}];
    that call is the one backend call made for it. *)
Theorem chat_returns_generated_text s b text d rest r :
  reachable s → text_field b = Some text →
  chat_pipe text {| max_new_tokens := 100; return_full_text := false |} =
    Returns (d :: rest) →
  d !! "generated_text" = Some r →
  let rid := length (requests s) in
  let ok := {| status_code := 200;
               body := JsonContent (JObj [("response", JStr r)]) |} in
  (∃ tr s', run s (Request Chat b :: tr) = Some s' ∧
            (rid, ok) ∈ responses s') ∧
  (∀ tr s' resp, run s (Request Chat b :: tr) = Some s' →
     (rid, resp) ∈ responses s' →
     resp = ok ∧
     calls_of_request rid s' =
       [GenerateCall text
          {| max_new_tokens := 100; return_full_text := false |}]).
Proof.
  intros Hre Hb Hpipe Hd rid ok.
  assert (run_chat text = Returns r) as Hrun.
  { rewrite run_chat_eq. apply first_entry_returns.
    exists d, rest. split; [exact Hpipe|exact Hd]. }
  assert (answer Chat b = ok) as Hans.
  { rewrite answer_eq. rewrite Hb. simpl. by rewrite Hrun. }
  destruct (request_served s Chat b Hre) as [Hex Hall]. split.
  - by rewrite <- Hans.
  - intros tr s' resp Hr Hin. destruct (Hall _ _ Hr) as [Hre' Hl]. split.
    + rewrite <- Hans.
      eapply answer_unique; eauto using reachable_invariant.
    + by rewrite (calls_answered _ _ _ _ _ _ Hre' Hin Hl Hb).
Qed.

(** C3: for a valid POST /summarize whose body carries the text [text],
    when the summarization pipeline called on [text] with [max_length=130],
    [min_length=30] and [do_sample=False] returns a list whose first dict
    has [r] under [summary_text], the request can be answered, and whenever
    it is answered the answer is HTTP 200 with the JSON object
    [{"summary": r}]; that call is the one backend call made for it. *)
Theorem summarize_returns_summary s b text d rest r :
  reachable s → text_field b = Some text →
  summary_pipe text
    {| max_length := 130; min_length := 30; do_sample := false |} =
    Returns (d :: rest) →
  d !! "summary_text" = Some r →
  let rid := length (requests s) in
  let ok := {| status_code := 200;
               body := JsonContent (JObj [("summary", JStr r)]) |} in
  (∃ tr s', run s (Request Summarize b :: tr) = Some s' ∧
            (rid, ok) ∈ responses s') ∧
  (∀ tr s' resp, run s (Request Summarize b :: tr) = Some s' →
     (rid, resp) ∈ responses s' →
     resp = ok ∧
     calls_of_request rid s' =
       [SummarizeCall text
          {| max_length := 130; min_length := 30; do_sample := false |}]).
Proof.
  intros Hre Hb Hpipe Hd rid ok.
  assert (run_summarize text = Returns r) as Hrun.
  { rewrite run_summarize_eq. apply first_entry_returns.
    exists d, rest. split; [exact Hpipe|exact Hd]. }
  assert (answer Summarize b = ok) as Hans.
  { rewrite answer_eq. rewrite Hb. simpl. by rewrite Hrun. }
  destruct (request_served s Summarize b Hre) as [Hex Hall]. split.
  - by rewrite <- Hans.
  - intros tr s' resp Hr Hin. destruct (Hall _ _ Hr) as [Hre' Hl]. split.
    + rewrite <- Hans.
      eapply answer_unique; eauto using reachable_invariant.
    + by rewrite (calls_answered _ _ _ _ _ _ Hre' Hin Hl Hb).
Qed.



(** C1 (amended): in every reachable state, whatever the schedule, a
    request whose backend call has been invoked and has not finished
    occupies a worker of the executor, no two of them the same request,
    and there are at most [max_workers] = 4 of them. *)
Theorem backend_calls_hold_a_worker s :
  reachable s →
  (∀ rid, rid ∈ in_backend s → rid ∈ running_ids s) ∧
  NoDup (in_backend s) ∧
  length (in_backend s) = length (running s) ∧
  (length (in_backend s) ≤ max_workers)%nat ∧
  max_workers = 4%nat.
Proof.
  intros Hre. pose proof (reachable_invariant _ Hre) as Hi.
  repeat split.
  - intros rid. by apply in_backend_running.
  - apply NoDup_filter. by apply pick_order_NoDup.
  - rewrite (in_backend_perm _ Hi). unfold running_ids.
    by rewrite length_fmap.
  - by apply in_backend_bound.
Qed.

Lemma fill_pool f :
  ∃ s', reachable s' ∧ length (running_of f s') = 4%nat ∧
        length (in_backend s') = 4%nat.
Proof.
  pose (b := Some (JObj [("text", JStr "a")])).
  pose (tr := [Request f b; Request f b; Request f b; Request f b;
               Pick; Pick; Pick; Pick]).
  exists (default init (run init tr)). split.
  - exists tr. by vm_compute.
  - destruct f; by vm_compute.
Qed.

(** C9: /chat and /summarize share the one executor: the generation and
    summarization calls in progress together are the calls in the backend
    and never exceed 4; a queued item of either kind is taken exactly when
    fewer than 4 items of both kinds together are running; and either kind
    alone can occupy all 4 workers. *)
Theorem one_executor_for_both_endpoints s :
  reachable s →
  (length (running_of Chat s) + length (running_of Summarize s) ≤ 4)%nat ∧
  length (in_backend s) =
    (length (running_of Chat s) + length (running_of Summarize s))%nat ∧
  (work_queue s ≠ [] →
     is_Some (exec s Pick) ↔
     (length (running_of Chat s) + length (running_of Summarize s) < 4)%nat) ∧
  (∀ f, ∃ s', reachable s' ∧ length (running_of f s') = 4%nat).
Proof.
  intros Hre. pose proof (reachable_invariant _ Hre) as Hi.
  rewrite running_of_split. repeat split.
  - by apply (inv_workers _ _ _ Hi).
  - rewrite (in_backend_perm _ Hi). unfold running_ids.
    by rewrite length_fmap.
  - by apply pick_enabled.
  - by apply pick_enabled.
  - intros f. destruct (fill_pool f) as (s' & ? & ? & _). eauto.
Qed.

(** C6: the configuration of the source: the executor has 4 workers, and
    the number of calls in the backend is bounded by that 4, which is
    reached; nothing but a free worker is needed for a queued item to be
    taken (no permit count gates the request path; the figure 15 is a line
    the test script prints); the server binds 0.0.0.0:8000. *)
Theorem recognized_configuration s :
  reachable s →
  max_workers = 4%nat ∧
  (host, port) = ("0.0.0.0", 8000) ∧
  server_configuration_notes !! 1%nat =
    Some "   - Semaphore limit: 15 concurrent GPU requests" ∧
  (length (in_backend s) ≤ 4)%nat ∧
  (work_queue s ≠ [] → (length (running s) < 4)%nat →
     is_Some (exec s Pick)) ∧
  (∃ s', reachable s' ∧ length (in_backend s') = 4%nat).
Proof.
  intros Hre. pose proof (reachable_invariant _ Hre) as Hi.
  repeat split.
  - by apply in_backend_bound.
  - intros Hne Hlt. by apply pick_enabled.
  - destruct (fill_pool Chat) as (s' & ? & _ & ?). eauto.
Qed.

(** C8: the work queue is served first in, first out. If [r1] was
    submitted before [r2] and [r2] has been taken by a worker, [r1] was
    taken strictly earlier. A queued item at position [k] is never
    overtaken: after any trace it is at position [k] minus the number of
    items taken, and it has been taken as soon as more than [k] have; and
    there is a trace that takes it. *)
Theorem queue_is_fifo s :
  reachable s →
  (∀ r1 r2 ep b j, (r1 < r2)%nat →
     requests s !! r1 = Some (ep, b) → is_Some (text_field b) →
     pick_order s !! j = Some r2 →
     ∃ i, (i < j)%nat ∧ pick_order s !! i = Some r1) ∧
  (∀ k w tr s', work_queue s !! k = Some w → run s tr = Some s' →
     ((k < picks tr)%nat → future w ∈ pick_order s') ∧
     ((picks tr ≤ k)%nat →
        queue_ids s' !! (k - picks tr)%nat = Some (future w))) ∧
  (∀ k w, work_queue s !! k = Some w →
     ∃ tr s', run s tr = Some s' ∧ future w ∈ pick_order s').
Proof.
  intros Hre. pose proof (reachable_invariant _ Hre) as Hi.
  split; [|split].
  - intros r1 r2 ep b j Hlt Hl Hb Hj.
    assert (r1 ∈ pick_order s ++ queue_ids s) as Hin.
    { rewrite (inv_timeline _ _ _ Hi). apply elem_of_submitted. eauto. }
    apply list_elem_of_lookup in Hin as [i Hi1].
    assert ((pick_order s ++ queue_ids s) !! j = Some r2) as Hj'.
    { by apply lookup_app_l_Some. }
    assert (i < j)%nat as Hij.
    { eapply (sorted_lt_lookup_inv _ i j r1 r2); [|done..].
      rewrite (inv_timeline _ _ _ Hi). apply submitted_sorted. }
    exists i. split; [done|].
    apply lookup_lt_Some in Hj.
    by rewrite lookup_app_l in Hi1 by lia.
  - intros k w tr s' Hk Hr.
    destruct (timeline_run _ _ _ Hr) as [[new Hnew] Hlen].
    assert ((pick_order s' ++ queue_ids s') !! (length (pick_order s) + k)%nat
            = Some (future w)) as Hl.
    { rewrite Hnew. apply lookup_app_l_Some.
      rewrite lookup_app_r by lia.
      replace (length (pick_order s) + k - length (pick_order s))%nat
        with k by lia.
      unfold queue_ids. by rewrite list_lookup_fmap, Hk. }
    split; intros Hp.
    + rewrite lookup_app_l in Hl by lia.
      by eapply list_elem_of_lookup_2.
    + rewrite lookup_app_r in Hl by lia. rewrite <- Hl. f_equal. lia.
  - intros k w Hk.
    apply list_elem_of_lookup_2, list_elem_of_split in Hk as (q1 & q2 & Hq).
    destruct (pick_nth q1 s w q2 Hi Hq) as (tr & s' & Hr & _ & Hrun & _).
    exists tr, s'. split; [done|].
    assert (invariant s') as Hi' by (by eapply invariant_run).
    apply (inv_occupied _ _ _ Hi'). by apply list_elem_of_fmap_2.
Qed.

(** * Further properties of the process *)

(** ** Every event but a request pays off one unit of pending work *)

Lemma exec_quiet_work s e s' :
  is_request e = false → exec s e = Some s' →
  pending_work s = S (pending_work s') ∧ requests s' = requests s.
Proof.
  unfold pending_work. destruct e as [ep b| |rid|rid]; simpl; intros Hq He.
  - done.
  - destruct (work_queue s) as [|w q]; [done|].
    case_decide; simplify_eq/=. rewrite length_app. simpl. split; [lia|done].
  - destruct (take_item rid (running s)) as [[w rest]|] eqn:Hti;
      simplify_eq/=.
    rewrite (take_item_length _ _ _ _ Hti). split; [lia|done].
  - destruct (take_item rid (awaiting s)) as [[w rest]|] eqn:Hti;
      simplify_eq/=.
    destruct (futures s !! rid); simplify_eq/=.
    rewrite (take_item_length _ _ _ _ Hti). split; [lia|done].
Qed.

Lemma run_quiet_work tr : ∀ s s',
  quiet tr → run s tr = Some s' →
  pending_work s = (length tr + pending_work s')%nat ∧
  requests s' = requests s.
Proof.
  induction tr as [|e tr IH]; intros s s' Hq Hr.
  - simpl in Hr. by simplify_eq.
  - rewrite run_cons in Hr. apply Forall_cons in Hq as [He Hq].
    destruct (exec s e) as [s1|] eqn:Hex; [|done]. simpl in Hr.
    destruct (exec_quiet_work _ _ _ He Hex) as [Hw1 Hr1].
    destruct (IH _ _ Hq Hr) as [Hw2 Hr2].
    split; [simpl; lia|congruence].
Qed.

Lemma progress s :
  invariant s → awaiting s ≠ [] →
  ∃ e s', is_request e = false ∧ exec s e = Some s'.
Proof.
  intros Hi Hne. destruct (awaiting s) as [|w rest] eqn:Haw; [done|].
  assert (w ∈ awaiting s) as Hw by (rewrite Haw; by left).
  pose proof (inv_awaiting _ _ _ Hi) as Hall. rewrite Forall_forall in Hall.
  destruct (Hall _ Hw) as (b & Hl & Hb).
  destruct (futures s !! future w) as [o|] eqn:Hfut.
  { destruct (respond_resolved s w Hi Hw) as (s' & He & _); [eauto|].
    by exists (Respond (future w)), s'. }
  assert (∀ x, x ∈ running s →
               ∃ s', exec s (Complete (future x)) = Some s') as Hcomplete.
  { intros x Hx.
    destruct (take_item_own _ _ _ (inv_running _ _ _ Hi) Hx) as [r Hti].
    simpl. rewrite Hti. simpl. eauto. }
  assert (future w ∈ submitted (requests s)) as Hsub.
  { apply elem_of_submitted. eauto 10. }
  rewrite <- (inv_timeline _ _ _ Hi) in Hsub.
  apply elem_of_app in Hsub as [Hpk|Hqu].
  - assert (future w ∈ running_ids s) as Hrun.
    { by apply (inv_occupied _ _ _ Hi). }
    apply list_elem_of_fmap in Hrun as (x & Heq & Hx).
    destruct (Hcomplete _ Hx) as [s' He].
    by exists (Complete (future x)), s'.
  - destruct (decide (length (running s) < max_workers)%nat) as [Hlt|Hge].
    + assert (work_queue s ≠ []) as Hq.
      { unfold queue_ids in Hqu. intros Hnil. rewrite Hnil in Hqu.
        by apply elem_of_nil in Hqu. }
      destruct (proj2 (pick_enabled s Hq) Hlt) as [s' He].
      by exists Pick, s'.
    + destruct (running s) as [|x xs] eqn:Hrun.
      { simpl in Hge. unfold max_workers in Hge. lia. }
      destruct (Hcomplete x) as [s' He]; [by left|].
      by exists (Complete (future x)), s'.
Qed.

Lemma in_flight_awaiting s rid :
  reachable s → rid ∈ queue_ids s ∨ rid ∈ running_ids s →
  rid ∈ awaiting_ids s.
Proof.
  intros Hre Hin. pose proof (reachable_invariant _ Hre) as Hi.
  assert (rid ∈ submitted (requests s) ∧ futures s !! rid = None)
    as [Hsub Hnone].
  { rewrite <- (inv_timeline _ _ _ Hi). destruct Hin as [Hq|Hr].
    - split; [apply elem_of_app; by right|].
      destruct (futures s !! rid) as [o|] eqn:Hf; [|done].
      destruct (inv_futures _ _ _ Hi _ _ Hf) as [Hpk _].
      pose proof (timeline_NoDup _ Hi) as Hnd.
      apply NoDup_app in Hnd as (_ & Hdis & _). by destruct (Hdis _ Hpk).
    - apply (inv_occupied _ _ _ Hi) in Hr as [Hpk Hf].
      split; [apply elem_of_app; by left|done]. }
  apply elem_of_submitted in Hsub as (ep & b & Hl & Hb).
  destruct (inv_pending _ _ _ Hi _ _ _ Hl) as [Haw|Hresp]; [done|].
  apply list_elem_of_fmap in Hresp as ([rid' resp] & -> & Hresp).
  destruct (reachable_resolved _ Hre _ _ _ _ Hresp Hl Hb) as [o Ho].
  simpl in *. congruence.
Qed.

Lemma idle_when_none_awaits s :
  reachable s → awaiting s = [] → quiescent s.
Proof.
  intros Hre Haw. unfold quiescent. repeat split; [| |done].
  - destruct (work_queue s) as [|w q] eqn:Hq; [done|].
    assert (future w ∈ awaiting_ids s) as Hin.
    { apply in_flight_awaiting; [done|]. left. unfold queue_ids.
      rewrite Hq. by left. }
    unfold awaiting_ids in Hin. rewrite Haw in Hin.
    by apply elem_of_nil in Hin.
  - destruct (running s) as [|w q] eqn:Hq; [done|].
    assert (future w ∈ awaiting_ids s) as Hin.
    { apply in_flight_awaiting; [done|]. right. unfold running_ids.
      rewrite Hq. by left. }
    unfold awaiting_ids in Hin. rewrite Haw in Hin.
    by apply elem_of_nil in Hin.
Qed.

Lemma drain n : ∀ s,
  invariant s → pending_work s = n →
  ∃ tr s', quiet tr ∧ run s tr = Some s' ∧ awaiting s' = [].
Proof.
  induction n as [|n IH]; intros s Hi Hn.
  - exists [], s. split; [constructor|]. split; [done|].
    unfold pending_work in Hn. destruct (awaiting s); [done|simpl in Hn; lia].
  - destruct (awaiting s) as [|w rest] eqn:Haw.
    { exists [], s. split; [constructor|]. done. }
    destruct (progress s Hi) as (e & s1 & Hq & He); [by rewrite Haw|].
    destruct (exec_quiet_work _ _ _ Hq He) as [Hw _].
    destruct (IH s1) as (tr & s' & Hqt & Hr & Hnil);
      [by eapply invariant_exec|lia|].
    exists (e :: tr), s'. split; [by constructor|].
    rewrite run_cons, He. done.
Qed.

(** With no new request arriving, the process does exactly the work it
    owes: a quiet trace never has more than [pending_work] events, and one
    of exactly that length leads to a state with nothing queued, running or
    suspended, in which every request read so far has the answer of its own
    handler. *)
Theorem server_drains s :
  reachable s →
  (∀ tr s', quiet tr → run s tr = Some s' →
            (length tr ≤ pending_work s)%nat) ∧
  ∃ tr s', quiet tr ∧ run s tr = Some s' ∧
           length tr = pending_work s ∧ quiescent s' ∧
           requests s' = requests s ∧
           ∀ rid ep b, requests s !! rid = Some (ep, b) →
                       (rid, answer ep b) ∈ responses s'.
Proof.
  intros Hre. pose proof (reachable_invariant _ Hre) as Hi. split.
  - intros tr s' Hq Hr. destruct (run_quiet_work _ _ _ Hq Hr) as [Hw _]. lia.
  - destruct (drain _ s Hi eq_refl) as (tr & s' & Hq & Hr & Hnil).
    assert (reachable s') as Hre' by (by eapply reachable_run).
    pose proof (reachable_invariant _ Hre') as Hi'.
    destruct (run_quiet_work _ _ _ Hq Hr) as [Hw Hreq].
    destruct (idle_when_none_awaits _ Hre' Hnil) as (Hq0 & Hr0 & _).
    exists tr, s'. repeat split; try done.
    + unfold pending_work in Hw at 2. rewrite Hq0, Hr0, Hnil in Hw.
      simpl in Hw. lia.
    + intros rid ep b Hl. rewrite <- Hreq in Hl.
      destruct (inv_pending _ _ _ Hi' _ _ _ Hl) as [Hin|Hin].
      * unfold awaiting_ids in Hin. rewrite Hnil in Hin.
        by apply elem_of_nil in Hin.
      * apply list_elem_of_fmap in Hin as ([rid' resp] & -> & Hin).
        simpl in *.
        by rewrite <- (answer_unique _ _ _ _ _ Hi' Hl Hin).
Qed.

(** The pool never deadlocks: in a reachable state that is not quiescent,
    some event other than the arrival of a request can happen. *)
Theorem pool_never_deadlocks s :
  reachable s → ¬ quiescent s →
  ∃ e s', is_request e = false ∧ exec s e = Some s'.
Proof.
  intros Hre Hnq. apply progress; [by apply reachable_invariant|].
  intros Hnil. by apply Hnq, idle_when_none_awaits.
Qed.


(** ** One answer per request *)

Lemma awaiting_lt s rid :
  invariant s → rid ∈ awaiting_ids s → (rid < length (requests s))%nat.
Proof.
  intros Hi (w & -> & Hw)%list_elem_of_fmap.
  pose proof (inv_awaiting _ _ _ Hi) as Hall. rewrite Forall_forall in Hall.
  destruct (Hall _ Hw) as (b & Hl & _). by eapply lookup_lt_Some.
Qed.

Lemma responded_lt s rid :
  invariant s → rid ∈ responded_ids s → (rid < length (requests s))%nat.
Proof.
  intros Hi ([rid' resp] & -> & Hin)%list_elem_of_fmap.
  destruct (inv_responses _ _ _ Hi _ _ Hin) as (ep & b & Hl & _).
  by eapply lookup_lt_Some.
Qed.

Lemma answered_once_exec s e s' :
  invariant s → answered_once s → exec s e = Some s' → answered_once s'.
Proof.
  intros Hi (Hna & Hnr & Hdis) He.
  assert (length (requests s) ∉ awaiting_ids s) as Hfa.
  { intros Hin%(awaiting_lt _ _ Hi). lia. }
  assert (length (requests s) ∉ responded_ids s) as Hfr.
  { intros Hin%(responded_lt _ _ Hi). lia. }
  unfold answered_once, awaiting_ids, responded_ids in *.
  destruct e as [ep b| |rid|rid]; simpl in He.
  - destruct (text_field b); simplify_eq/=; rewrite fmap_app; simpl.
    + repeat split; [|done|].
      * apply NoDup_app. repeat split; [done| |apply NoDup_singleton].
        by intros x Hx ->%list_elem_of_singleton.
      * intros x [Hx| ->%list_elem_of_singleton]%elem_of_app; auto.
    + repeat split; [done| |].
      * apply NoDup_app. repeat split; [done| |apply NoDup_singleton].
        by intros x Hx ->%list_elem_of_singleton.
      * intros x Hx [Hr| ->%list_elem_of_singleton]%elem_of_app;
          [by apply (Hdis x)|done].
  - destruct (work_queue s) as [|w q]; [done|].
    case_decide; by simplify_eq/=.
  - destruct (take_item rid (running s)) as [[w rest]|]; by simplify_eq/=.
  - destruct (take_item rid (awaiting s)) as [[w rest]|] eqn:Hti;
      simplify_eq/=.
    destruct (futures s !! rid); simplify_eq/=.
    apply take_item_spec in Hti as [<- Hperm].
    assert (∀ x, x ∈ future <$> w :: rest → x ∈ future <$> awaiting s)
      as Hsub.
    { intros x Hx. by rewrite Hperm. }
    rewrite Hperm in Hna. simpl in Hna.
    apply NoDup_cons in Hna as [Hnotin Hna]. rewrite fmap_app. simpl.
    repeat split; [done| |].
    + apply NoDup_app. repeat split; [done| |apply NoDup_singleton].
      intros x Hx ->%list_elem_of_singleton.
      apply (Hdis (future w)); [|done]. apply Hsub. by left.
    + intros x Hx [Hr| ->%list_elem_of_singleton]%elem_of_app; [|done].
      apply (Hdis x); [|done]. apply Hsub. by right.
Qed.

Lemma answered_once_run tr : ∀ s s',
  invariant s → answered_once s → run s tr = Some s' → answered_once s'.
Proof.
  induction tr as [|e tr IH]; intros s s' Hi Ha Hr; simpl in Hr.
  - by simplify_eq.
  - destruct (exec s e) as [s1|] eqn:He; [|done]. simpl in Hr.
    eauto using invariant_exec, answered_once_exec.
Qed.

Lemma reachable_answered_once s : reachable s → answered_once s.
Proof.
  intros [tr Hr]. eapply answered_once_run; [apply invariant_init| |done].
  repeat split; try constructor. by intros ? ?%elem_of_nil.
Qed.

Lemma calls_resolved_exec s e s' :
  invariant s → exec s e = Some s' →
  length (backend_calls s) = (length (running s) + size (futures s))%nat →
  length (backend_calls s') = (length (running s') + size (futures s'))%nat.
Proof.
  intros Hi He Hlen. destruct e as [ep b| |rid|rid]; simpl in He.
  - destruct (text_field b); by simplify_eq/=.
  - destruct (work_queue s) as [|w q]; [done|].
    case_decide; simplify_eq/=. rewrite !length_app. simpl. lia.
  - destruct (take_item rid (running s)) as [[w rest]|] eqn:Hti;
      simplify_eq/=.
    pose proof (take_item_length _ _ _ _ Hti) as Hl.
    apply take_item_spec in Hti as [<- Hperm].
    assert (futures s !! future w = None) as Hnone.
    { apply (inv_occupied _ _ _ Hi). unfold running_ids. rewrite Hperm.
      by left. }
    rewrite map_size_insert_None by done. lia.
  - destruct (take_item rid (awaiting s)) as [[w rest]|]; simplify_eq/=.
    destruct (futures s !! rid); by simplify_eq/=.
Qed.

Lemma calls_resolved_run tr : ∀ s s',
  invariant s → run s tr = Some s' →
  length (backend_calls s) = (length (running s) + size (futures s))%nat →
  length (backend_calls s') = (length (running s') + size (futures s'))%nat.
Proof.
  induction tr as [|e tr IH]; intros s s' Hi Hr Hlen; simpl in Hr.
  - by simplify_eq.
  - destruct (exec s e) as [s1|] eqn:He; [|done]. simpl in Hr.
    eauto using invariant_exec, calls_resolved_exec.
Qed.

(** No request is answered twice, and none is answered while its handler
    is still suspended. *)
Theorem each_request_answered_at_most_once s :
  reachable s →
  NoDup (responded_ids s) ∧
  (∀ rid resp resp', (rid, resp) ∈ responses s → (rid, resp') ∈ responses s →
                     resp = resp') ∧
  (∀ rid, rid ∈ awaiting_ids s → rid ∉ responded_ids s).
Proof.
  intros Hre. pose proof (reachable_invariant _ Hre) as Hi.
  destruct (reachable_answered_once _ Hre) as (_ & Hnd & Hdis).
  repeat split; [done| |done].
  intros rid resp resp' Hin Hin'.
  destruct (inv_responses _ _ _ Hi _ _ Hin) as (ep & b & Hl & ->).
  symmetry. by eapply answer_unique.
Qed.

(** No request is lost: every request read is either suspended at its
    [await] or answered; every request that passed validation is either in
    the queue or has had its backend call started; and every call started
    is either running on a worker or has resolved its future. *)
Theorem no_request_is_lost s :
  reachable s →
  length (requests s) = (length (awaiting s) + length (responses s))%nat ∧
  length (submitted (requests s)) =
    (length (work_queue s) + length (backend_calls s))%nat ∧
  length (backend_calls s) = (length (running s) + size (futures s))%nat.
Proof.
  intros Hre. pose proof (reachable_invariant _ Hre) as Hi.
  destruct (reachable_answered_once _ Hre) as (Hna & Hnr & Hdis).
  repeat split.
  - assert (awaiting_ids s ++ responded_ids s ≡ₚ seq 0 (length (requests s)))
      as Hperm.
    { apply NoDup_Permutation.
      - apply NoDup_app. done.
      - apply NoDup_seq.
      - intros rid. rewrite elem_of_app, elem_of_seq. split.
        + intros [Hin|Hin]; [apply (awaiting_lt _ _ Hi) in Hin
                            |apply (responded_lt _ _ Hi) in Hin]; lia.
        + intros [_ Hlt]. simpl in Hlt.
          destruct (lookup_lt_is_Some_2 (requests s) rid Hlt) as [[ep b] Hl].
          by eapply (inv_pending _ _ _ Hi). }
    apply Permutation_length in Hperm.
    unfold awaiting_ids, responded_ids in Hperm.
    rewrite length_app, !length_fmap, length_seq in Hperm. lia.
  - rewrite <- (inv_timeline _ _ _ Hi). unfold pick_order, queue_ids.
    rewrite length_app, !length_fmap. lia.
  - destruct Hre as [tr Hr].
    eapply calls_resolved_run; [apply invariant_init|done|done].
Qed.

(** ** Futures are assigned once *)

Lemma futures_kept_exec s e s' rid o :
  invariant s → exec s e = Some s' →
  futures s !! rid = Some o → futures s' !! rid = Some o.
Proof.
  intros Hi He Ho. destruct e as [ep b| |rid0|rid0]; simpl in He.
  - destruct (text_field b); by simplify_eq/=.
  - destruct (work_queue s) as [|w q]; [done|].
    case_decide; by simplify_eq/=.
  - destruct (take_item rid0 (running s)) as [[w rest]|] eqn:Hti;
      simplify_eq/=.
    apply take_item_spec in Hti as [<- Hperm].
    assert (futures s !! future w = None) as Hnone.
    { apply (inv_occupied _ _ _ Hi). unfold running_ids. rewrite Hperm.
      by left. }
    rewrite lookup_insert_ne; [done|]. intros <-. congruence.
  - destruct (take_item rid0 (awaiting s)) as [[w rest]|]; simplify_eq/=.
    destruct (futures s !! rid0); by simplify_eq/=.
Qed.

(** A future is resolved once and for all: once it holds a result, it holds
    the same result in every later state, and that result is what the work
    item of its own request returned or raised. *)
Theorem futures_are_assigned_once s tr s' rid o :
  reachable s → run s tr = Some s' → futures s !! rid = Some o →
  futures s' !! rid = Some o ∧
  ∃ ep b text, requests s !! rid = Some (ep, b) ∧
               text_field b = Some text ∧ o = run_task ep text.
Proof.
  intros Hre Hr Ho. pose proof (reachable_invariant _ Hre) as Hi. split.
  - clear Hre. revert s Hi Hr Ho.
    induction tr as [|e tr IH]; intros s Hi Hr Ho; simpl in Hr.
    + by simplify_eq.
    + destruct (exec s e) as [s1|] eqn:He; [|done]. simpl in Hr.
      eauto using invariant_exec, futures_kept_exec.
  - by destruct (inv_futures _ _ _ Hi _ _ Ho) as [_ ?].
Qed.

(** ** What a response tells *)


(** [run_chat] and [run_summarize] return exactly when the pipeline returns
    a list whose first element has the key they read, and what they return
    is that entry; an empty list raises [IndexError], a first element
    without the key raises [KeyError], and later elements are ignored. *)
Theorem pipeline_output_shape text :
  (∀ r, run_chat text = Returns r ↔
        ∃ d rest, backend (chat_call text) = Returns (d :: rest) ∧
                  d !! "generated_text" = Some r) ∧
  (∀ r, run_summarize text = Returns r ↔
        ∃ d rest, backend (summarize_call text) = Returns (d :: rest) ∧
                  d !! "summary_text" = Some r) ∧
  (backend (chat_call text) = Returns [] →
   run_chat text = Raises IndexError) ∧
  (backend (summarize_call text) = Returns [] →
   run_summarize text = Raises IndexError) ∧
  (∀ d rest, backend (chat_call text) = Returns (d :: rest) →
             d !! "generated_text" = None →
             run_chat text = Raises (KeyError "generated_text")) ∧
  (∀ d rest, backend (summarize_call text) = Returns (d :: rest) →
             d !! "summary_text" = None →
             run_summarize text = Raises (KeyError "summary_text")).
Proof.
  rewrite run_chat_eq, run_summarize_eq.
  split; [intros r; apply first_entry_returns|].
  split; [intros r; apply first_entry_returns|].
  split; [by intros ->|]. split; [by intros ->|].
  split; intros d rest -> Hk; simpl; unfold item, getitem; simpl;
    by rewrite Hk.
Qed.


End ServerProofs.

(** C10: the answer to a /summarize request depends on the backend only
    through the one call [summary_pipe(text, max_length=130, min_length=30,
    do_sample=False)]: two answered /summarize requests with the same text,
    in one run or in two, against one backend or against two that agree on
    that call, have the same answer, which is what the handler makes of the
    result of that call, and each made that one call. *)
Theorem summarize_is_deterministic
    (chat_pipe1 chat_pipe2 : string → generation_kwargs → outcome pipe_output)
    (summary_pipe1 summary_pipe2 :
       string → summarization_kwargs → outcome pipe_output)
    s1 s2 r1 r2 b1 b2 text resp1 resp2 :
  reachable chat_pipe1 summary_pipe1 s1 →
  reachable chat_pipe2 summary_pipe2 s2 →
  requests s1 !! r1 = Some (Summarize, b1) →
  requests s2 !! r2 = Some (Summarize, b2) →
  text_field b1 = Some text → text_field b2 = Some text →
  summary_pipe1 text
    {| max_length := 130; min_length := 30; do_sample := false |} =
  summary_pipe2 text
    {| max_length := 130; min_length := 30; do_sample := false |} →
  (r1, resp1) ∈ responses s1 → (r2, resp2) ∈ responses s2 →
  resp1 = resp2 ∧
  resp1 =
    to_response
      (summarize
         (out ← summary_pipe1 text
                  {| max_length := 130; min_length := 30;
                     do_sample := false |};
          d ← item out 0;
          getitem d "summary_text")) ∧
  calls_of_request r1 s1 =
    [SummarizeCall text
       {| max_length := 130; min_length := 30; do_sample := false |}] ∧
  calls_of_request r2 s2 = calls_of_request r1 s1.
Proof.
  intros Hre1 Hre2 Hl1 Hl2 Hb1 Hb2 Hagree Hin1 Hin2.
  rewrite (answer_unique _ _ _ _ _ _ _
             (reachable_invariant _ _ _ Hre1) Hl1 Hin1).
  rewrite (answer_unique _ _ _ _ _ _ _
             (reachable_invariant _ _ _ Hre2) Hl2 Hin2).
  rewrite (calls_answered _ _ _ _ _ _ _ _ Hre1 Hin1 Hl1 Hb1).
  rewrite (calls_answered _ _ _ _ _ _ _ _ Hre2 Hin2 Hl2 Hb2).
  rewrite (summarize_answer_eq chat_pipe1 summary_pipe1 b1 text Hb1).
  rewrite (summarize_answer_eq chat_pipe2 summary_pipe2 b2 text Hb2).
  by rewrite Hagree.
Qed.

(** * Concrete runs *)

Lemma chat_returns_generated_text_witness :
  let s := state_after echo_chat_pipe echo_summary_pipe busy_pool in
  reachable echo_chat_pipe echo_summary_pipe s ∧
  echo_chat_pipe "hi" {| max_new_tokens := 100; return_full_text := false |} =
    Returns [ {[ "generated_text" := "hi" ]} ] ∧
  ({[ "generated_text" := "hi" ]} : gmap string string) !! "generated_text" =
    Some "hi" ∧
  ∃ tr s',
    run echo_chat_pipe echo_summary_pipe s (Request Chat (text_body "hi") :: tr)
      = Some s' ∧
    (6%nat, {| status_code := 200;
               body := JsonContent (JObj [("response", JStr "hi")]) |})
      ∈ responses s'.
Proof.
  intros s.
  assert (reachable echo_chat_pipe echo_summary_pipe s) as Hre.
  { exists busy_pool. by vm_compute. }
  assert (({[ "generated_text" := "hi" ]} : gmap string string)
            !! "generated_text" = Some "hi") as Hd by (by vm_compute).
  split; [done|]. split; [done|]. split; [done|].
  exact (proj1 (chat_returns_generated_text echo_chat_pipe echo_summary_pipe
                  s (text_body "hi") "hi" _ [] "hi" Hre eq_refl eq_refl Hd)).
Defined.

Lemma summarize_returns_summary_witness :
  let s := state_after echo_chat_pipe echo_summary_pipe one_running in
  reachable echo_chat_pipe echo_summary_pipe s ∧
  echo_summary_pipe "long text"
    {| max_length := 130; min_length := 30; do_sample := false |} =
    Returns [ {[ "summary_text" := "long text" ]} ] ∧
  ({[ "summary_text" := "long text" ]} : gmap string string)
    !! "summary_text" = Some "long text" ∧
  ∃ tr s',
    run echo_chat_pipe echo_summary_pipe s
      (Request Summarize (text_body "long text") :: tr) = Some s' ∧
    (1%nat, {| status_code := 200;
               body := JsonContent (JObj [("summary", JStr "long text")]) |})
      ∈ responses s'.
Proof.
  intros s.
  assert (reachable echo_chat_pipe echo_summary_pipe s) as Hre.
  { exists one_running. by vm_compute. }
  assert (({[ "summary_text" := "long text" ]} : gmap string string)
            !! "summary_text" = Some "long text") as Hd by (by vm_compute).
  split; [done|]. split; [done|]. split; [done|].
  exact (proj1 (summarize_returns_summary echo_chat_pipe echo_summary_pipe
                  s (text_body "long text") "long text" _ [] "long text"
                  Hre eq_refl eq_refl Hd)).
Defined.




Lemma summarize_is_deterministic_witness :
  let s := state_after echo_chat_pipe echo_summary_pipe two_summaries in
  reachable echo_chat_pipe echo_summary_pipe s ∧
  ∃ resp1 resp2,
    (0%nat, resp1) ∈ responses s ∧ (1%nat, resp2) ∈ responses s ∧
    resp1 = resp2 ∧
    calls_of_request 1 s = calls_of_request 0 s.
Proof.
  intros s.
  assert (reachable echo_chat_pipe echo_summary_pipe s) as Hre.
  { exists two_summaries. by vm_compute. }
  split; [done|].
  pose (resp := {| status_code := 200;
                   body := JsonContent (JObj [("summary", JStr "t")]) |}).
  assert ((0%nat, resp) ∈ responses s) as Hin1.
  { apply (list_elem_of_lookup_2 _ 0%nat). by vm_compute. }
  assert ((1%nat, resp) ∈ responses s) as Hin2.
  { apply (list_elem_of_lookup_2 _ 1%nat). by vm_compute. }
  exists resp, resp. split; [done|]. split; [done|].
  destruct (summarize_is_deterministic
              echo_chat_pipe failing_chat_pipe
              echo_summary_pipe echo_summary_pipe
              s s 0%nat 1%nat (text_body "t")
              (Some (JObj [("lang", JStr "en"); ("text", JStr "t")]))
              "t" resp resp Hre)
    as (Heq & _ & _ & Hcalls); try done.
  exists two_summaries. by vm_compute.
Defined.

(** C1, as the specification words it, fails: with a gate of two permits in
    mind (the specification's scenario N = 4, M = 2), three chat requests
    are inside the backend at once. *)
Lemma two_permits_are_exceeded :
  ¬ (∀ s, reachable echo_chat_pipe echo_summary_pipe s → permit_bound 2 s).
Proof.
  intros Hall.
  assert (reachable echo_chat_pipe echo_summary_pipe
            (state_after echo_chat_pipe echo_summary_pipe three_in_flight))
    as Hre.
  { exists three_in_flight. by vm_compute. }
  apply Hall in Hre. unfold permit_bound in Hre. vm_compute in Hre. lia.
Qed.

Lemma backend_calls_hold_a_worker_witness :
  let s := state_after echo_chat_pipe echo_summary_pipe busy_pool in
  reachable echo_chat_pipe echo_summary_pipe s ∧
  length (in_backend s) = 4%nat ∧
  (length (in_backend s) ≤ max_workers)%nat ∧
  ∀ rid, rid ∈ in_backend s → rid ∈ running_ids s.
Proof.
  intros s.
  assert (reachable echo_chat_pipe echo_summary_pipe s) as Hre.
  { exists busy_pool. by vm_compute. }
  split; [done|]. split; [by vm_compute|].
  destruct (backend_calls_hold_a_worker echo_chat_pipe echo_summary_pipe
              s Hre) as (Hin & _ & _ & Hle & _).
  split; [exact Hle|exact Hin].
Defined.

Lemma one_executor_for_both_endpoints_witness :
  let s := state_after echo_chat_pipe echo_summary_pipe busy_pool in
  reachable echo_chat_pipe echo_summary_pipe s ∧
  length (running_of Chat s) = 2%nat ∧
  length (running_of Summarize s) = 2%nat ∧
  (length (running_of Chat s) + length (running_of Summarize s) ≤ 4)%nat ∧
  exec echo_chat_pipe echo_summary_pipe s Pick = None.
Proof.
  intros s.
  assert (reachable echo_chat_pipe echo_summary_pipe s) as Hre.
  { exists busy_pool. by vm_compute. }
  split; [done|]. split; [by vm_compute|]. split; [by vm_compute|].
  destruct (one_executor_for_both_endpoints echo_chat_pipe echo_summary_pipe
              s Hre) as (Hle & _ & _ & _).
  split; [exact Hle|by vm_compute].
Defined.

Lemma recognized_configuration_witness :
  let s := state_after echo_chat_pipe echo_summary_pipe three_in_flight in
  reachable echo_chat_pipe echo_summary_pipe s ∧
  max_workers = 4%nat ∧ (host, port) = ("0.0.0.0", 8000) ∧
  (length (in_backend s) ≤ 4)%nat.
Proof.
  intros s.
  assert (reachable echo_chat_pipe echo_summary_pipe s) as Hre.
  { exists three_in_flight. by vm_compute. }
  split; [done|].
  destruct (recognized_configuration echo_chat_pipe echo_summary_pipe s Hre)
    as (Hn & Hb & _ & Hle & _).
  split; [exact Hn|]. split; [exact Hb|exact Hle].
Defined.

Lemma queue_is_fifo_witness :
  let s := state_after echo_chat_pipe echo_summary_pipe busy_pool in
  reachable echo_chat_pipe echo_summary_pipe s ∧
  pick_order s !! 3%nat = Some 4%nat ∧
  (∃ i, (i < 3)%nat ∧ pick_order s !! i = Some 1%nat) ∧
  queue_ids s = [5%nat].
Proof.
  intros s.
  assert (reachable echo_chat_pipe echo_summary_pipe s) as Hre.
  { exists busy_pool. by vm_compute. }
  split; [done|]. split; [by vm_compute|]. split; [|by vm_compute].
  destruct (queue_is_fifo echo_chat_pipe echo_summary_pipe s Hre)
    as (Hfifo & _ & _).
  apply (Hfifo 1%nat 4%nat Summarize (text_body "b") 3%nat).
  - lia.
  - by vm_compute.
  - by eexists.
  - by vm_compute.
Defined.

(** * The demo page against the server *)

Section PageProofs.

Variable chat_pipe : string -> generation_kwargs -> outcome pipe_output.
Variable summary_pipe : string -> summarization_kwargs -> outcome pipe_output.
Variable parse_json : string -> option json.

Local Abbreviation run_task := (run_task chat_pipe summary_pipe).
Local Abbreviation answer := (answer chat_pipe summary_pipe).
Local Abbreviation run := (run chat_pipe summary_pipe).
Local Abbreviation reachable := (reachable chat_pipe summary_pipe).

Lemma submit_fetch_spec p p1 path b :
  submit_fetch p = (p1, path, b) →
  mode p1 = mode p ∧ input p1 = input p ∧
  b = Some (JObj [("text", JStr (input p))]) ∧
  text_field b = Some (input p) ∧
  ((mode p = "chat" ∧ path = "/chat" ∧ route path = Some Chat ∧
    output p1 = Progress "Generating...") ∨
   (mode p ≠ "chat" ∧ path = "/summarize" ∧ route path = Some Summarize ∧
    output p1 = Progress "Summarizing...")).
Proof.
  unfold submit_fetch. intros [= <- <- <-]. simpl.
  repeat split. destruct (decide (mode p = "chat")); [left|right]; done.
Qed.

Lemma page_answer s ep b tr s' resp :
  reachable s → run s (Request ep b :: tr) = Some s' →
  (length (requests s), resp) ∈ responses s' → resp = answer ep b.
Proof.
  intros Hre Hr Hin.
  destruct (request_served _ _ s ep b Hre) as [_ Hall].
  destruct (Hall _ _ Hr) as [Hre' Hl].
  eapply answer_unique; eauto using reachable_invariant.
Qed.

(** Whatever the mode and the text typed, also the empty text, [submit]
    posts to a route of the application a body that passes validation, so
    the page is never answered 422; and when the pipeline call returns [r]
    and the mode is not switched meanwhile, the page shows [r]. *)
Theorem page_shows_backend_output s p p1 path b :
  reachable s → submit_fetch p = (p1, path, b) →
  ∃ ep, route path = Some ep ∧ text_field b = Some (input p) ∧
        ∀ r tr s' resp,
          run_task ep (input p) = Returns r →
          run s (Request ep b :: tr) = Some s' →
          (length (requests s), resp) ∈ responses s' →
          status_code resp = 200 ∧
          output <$> submit_done parse_json p1 resp =
            Some (Value (Some (JStr r))).
Proof.
  intros Hre Hf.
  destruct (submit_fetch_spec _ _ _ _ Hf) as (Hm & Hi & _ & Hb & Hcase).
  destruct Hcase as [(Hc & _ & Hroute & _)|(Hc & _ & Hroute & _)].
  - exists Chat. split; [done|]. split; [done|].
    intros r tr s' resp Hrun Hr Hin.
    rewrite (page_answer _ _ _ _ _ _ Hre Hr Hin), answer_eq, Hb, Hrun.
    split; [done|]. unfold submit_done. by rewrite Hm, decide_True.
  - exists Summarize. split; [done|]. split; [done|].
    intros r tr s' resp Hrun Hr Hin.
    rewrite (page_answer _ _ _ _ _ _ Hre Hr Hin), answer_eq, Hb, Hrun.
    split; [done|]. unfold submit_done. by rewrite Hm, decide_False.
Qed.

(** [submit] reads [mode] again after the response has come: when the user
    switches to the other mode while the request is in flight, the page
    reads the field of the other endpoint, which the response does not
    have, and shows [undefined] although the pipeline call returned. *)
Theorem page_mode_switch_loses_the_answer s p p1 path b ep newMode r :
  reachable s → submit_fetch p = (p1, path, b) → route path = Some ep →
  run_task ep (input p) = Returns r →
  (mode p = "chat" ↔ newMode ≠ "chat") →
  ∀ tr s' resp,
    run s (Request ep b :: tr) = Some s' →
    (length (requests s), resp) ∈ responses s' →
    status_code resp = 200 ∧
    output <$> submit_done parse_json (switchMode newMode p1) resp =
      Some (Value None).
Proof.
  intros Hre Hf Hroute Hrun Hsw tr s' resp Hr Hin.
  destruct (submit_fetch_spec _ _ _ _ Hf) as (Hm & Hi & _ & Hb & Hcase).
  rewrite (page_answer _ _ _ _ _ _ Hre Hr Hin), answer_eq, Hb.
  destruct Hcase as [(Hc & _ & Hroute' & _)|(Hc & _ & Hroute' & _)];
    rewrite Hroute' in Hroute; injection Hroute as <-; rewrite Hrun;
    (split; [done|]); unfold submit_done;
    change (mode (switchMode newMode p1)) with newMode;
    destruct (decide (newMode = "chat")) as [Hn|Hn]; try done.
  - by destruct (proj1 Hsw Hc).
  - destruct Hc. by apply Hsw.
Qed.

(** When the pipeline call raises, the server's 500 carries a plain text
    that is no JSON: [res.json()] is rejected, nothing catches it, and the
    page keeps the progress text it showed when the request was sent. *)
Theorem page_stuck_on_backend_failure s p p1 path b ep e :
  reachable s → submit_fetch p = (p1, path, b) → route path = Some ep →
  run_task ep (input p) = Raises e →
  parse_json "Internal Server Error" = None →
  (output p1 = Progress "Generating..." ∨
   output p1 = Progress "Summarizing...") ∧
  ∀ tr s' resp,
    run s (Request ep b :: tr) = Some s' →
    (length (requests s), resp) ∈ responses s' →
    status_code resp = 500 ∧ submit_done parse_json p1 resp = None.
Proof.
  intros Hre Hf Hroute Hrun Hparse.
  destruct (submit_fetch_spec _ _ _ _ Hf) as (Hm & Hi & _ & Hb & Hcase).
  split; [destruct Hcase as [(_&_&_&?)|(_&_&_&?)]; auto|].
  intros tr s' resp Hr Hin.
  rewrite (page_answer _ _ _ _ _ _ Hre Hr Hin), answer_eq, Hb, Hrun.
  assert (resume ep (Raises e) = internal_server_error) as ->
    by (by destruct ep).
  split; [done|]. unfold submit_done, res_read. simpl. by rewrite Hparse.
Qed.

Lemma page_after_snoc gs g :
  page_after (gs ++ [g]) = perform (page_after gs) g.
Proof. unfold page_after. by rewrite foldl_app. Qed.

(** However the user clicks and types, exactly one of the two buttons is
    highlighted, and it is the one of the endpoint the next [submit] posts
    to; the body carries the text last typed. *)
Theorem page_buttons_match_endpoint gs p1 path b :
  submit_fetch (page_after gs) = (p1, path, b) →
  chatBtn_active (page_after gs) = negb (summaryBtn_active (page_after gs)) ∧
  (chatBtn_active (page_after gs) = true ↔ route path = Some Chat) ∧
  (summaryBtn_active (page_after gs) = true ↔ route path = Some Summarize) ∧
  text_field b = Some (input (page_after gs)).
Proof.
  intros Hf.
  assert ((mode (page_after gs) = "chat" ∧
           chatBtn_active (page_after gs) = true ∧
           summaryBtn_active (page_after gs) = false) ∨
          (mode (page_after gs) = "summary" ∧
           chatBtn_active (page_after gs) = false ∧
           summaryBtn_active (page_after gs) = true)) as Hinv.
  { clear Hf. induction gs as [|g gs IH] using rev_ind.
    - left. done.
    - rewrite page_after_snoc. destruct g; simpl; [by left|by right|done]. }
  destruct (submit_fetch_spec _ _ _ _ Hf) as (_ & _ & _ & Hb & Hcase).
  split; [|split; [|split; [|done]]].
  - destruct Hinv as [(_ & -> & ->)|(_ & -> & ->)]; done.
  - destruct Hinv as [(Hm & -> & _)|(Hm & -> & _)];
      destruct Hcase as [(Hc & _ & -> & _)|(Hc & _ & -> & _)];
      split; try done; congruence.
  - destruct Hinv as [(Hm & _ & ->)|(Hm & _ & ->)];
      destruct Hcase as [(Hc & _ & -> & _)|(Hc & _ & -> & _)];
      split; try done; congruence.
Qed.

End PageProofs.

(** * The load test against the server *)

Section LoadTestProofs.

Variable chat_pipe : string -> generation_kwargs -> outcome pipe_output.
Variable summary_pipe : string -> summarization_kwargs -> outcome pipe_output.
Variable T : Type.
Variable tsum : list T -> T.
Variable tdiv : T -> Z -> T.
Variable tlt : T -> T -> bool.
Variable net : nat -> url -> http_body -> T * exchange.

Local Abbreviation run_task := (run_task chat_pipe summary_pipe).
Local Abbreviation answer := (answer chat_pipe summary_pipe).
Local Abbreviation run := (run chat_pipe summary_pipe).
Local Abbreviation reachable := (reachable chat_pipe summary_pipe).

Lemma make_result_user user_id (t : T) x :
  user (make_result user_id t x) = user_id.
Proof. destruct x as [[c [| |]]|]; done. Qed.

Lemma make_chat_request_user user_id :
  user (make_chat_request T net user_id) = user_id.
Proof.
  unfold make_chat_request. destruct (net _ _ _). apply make_result_user.
Qed.

Lemma make_summary_request_user user_id :
  user (make_summary_request T net user_id) = user_id.
Proof.
  unfold make_summary_request. destruct (net _ _ _). apply make_result_user.
Qed.

Lemma make_result_success user_id (t : T) ep text b tr s s' x :
  reachable s → text_field b = Some text →
  run s (Request ep b :: tr) = Some s' →
  (∀ resp, x = Answered resp →
           (length (requests s), resp) ∈ responses s') →
  (∀ err, x = Failed err → success (make_result user_id t x) = false) ∧
  (∀ resp, x = Answered resp →
           status_code resp = 200 ∨ status_code resp = 500) ∧
  (success (make_result user_id t x) = true ↔
   (∃ resp, x = Answered resp) ∧ ∃ r, run_task ep text = Returns r) ∧
  (success (make_result user_id t x) = true ↔
   ∃ resp, x = Answered resp ∧ status_code resp = 200).
Proof.
  intros Hre Hb Hr Hx. destruct x as [resp|err].
  - specialize (Hx resp eq_refl).
    rewrite (page_answer _ _ _ _ _ _ _ _ Hre Hr Hx), answer_eq, Hb.
    split; [done|].
    destruct (run_task ep text) as [r|e]; destruct ep; simpl.
    all: split; [intros ? [= <-]; simpl; auto|].
    all: split; split; try done; eauto.
    all: try (by intros [_ [? ?]]).
    all: by intros (? & [= <-] & ?).
  - clear Hx. split; [done|]. split; [done|]. simpl.
    split; split; try done.
    + by intros [[? ?] _].
    + by intros (? & ? & _).
Qed.

(** Every request the load test sends goes to a route and the port of the
    server with a body that passes validation, so an answer to it is never
    a 400 or a 422; the test counts the request as a success exactly when an
    answer came and the pipeline call for its text returned, that is when an
    answer with status 200 came: a backend exception shows as a failure,
    since the 500 is no JSON, and so does a timeout or a connection error,
    whatever the pipeline call does. *)
Theorem load_test_success_means_backend_returned s user_id (t : T) tr s' x :
  reachable s →
  (∀ resp, x = Answered resp →
           (length (requests s), resp) ∈ responses s') →
  (run s (Request Chat (chat_body user_id) :: tr) = Some s' →
   route (url_path chat_url) = Some Chat ∧ url_port chat_url = port ∧
   (∀ err, x = Failed err → success (make_result user_id t x) = false) ∧
   (∀ resp, x = Answered resp →
            status_code resp = 200 ∨ status_code resp = 500) ∧
   (success (make_result user_id t x) = true ↔
    (∃ resp, x = Answered resp) ∧
    ∃ r, run_task Chat (chat_prompt user_id) = Returns r) ∧
   (success (make_result user_id t x) = true ↔
    ∃ resp, x = Answered resp ∧ status_code resp = 200)) ∧
  (run s (Request Summarize summary_body :: tr) = Some s' →
   route (url_path summarize_url) = Some Summarize ∧
   url_port summarize_url = port ∧
   (∀ err, x = Failed err → success (make_result user_id t x) = false) ∧
   (∀ resp, x = Answered resp →
            status_code resp = 200 ∨ status_code resp = 500) ∧
   (success (make_result user_id t x) = true ↔
    (∃ resp, x = Answered resp) ∧
    ∃ r, run_task Summarize text_to_summarize = Returns r) ∧
   (success (make_result user_id t x) = true ↔
    ∃ resp, x = Answered resp ∧ status_code resp = 200)).
Proof.
  intros Hre Hx. split; intros Hr; (split; [done|]); (split; [done|]).
  - exact (make_result_success user_id t Chat (chat_prompt user_id)
             (chat_body user_id) tr s s' x Hre eq_refl Hr Hx).
  - exact (make_result_success user_id t Summarize text_to_summarize
             summary_body tr s s' x Hre eq_refl Hr Hx).
Qed.

(** With no user, or a negative number of users, [run_concurrent_test]
    sends nothing and raises the [ValueError] of [max] on an empty sequence
    before it prints any result. *)
Theorem run_concurrent_test_needs_a_user (num_users : Z) test_type :
  (num_users ≤ 0)%Z →
  run_concurrent_test T tsum tdiv tlt net num_users test_type = ValueError.
Proof.
  intros Hle. unfold run_concurrent_test.
  replace (Z.to_nat num_users) with 0%nat by lia. simpl.
  by destruct (decide (test_type = "chat")).
Qed.

Lemma py_max_is_Some (l : list T) : l ≠ [] → is_Some (py_max T tlt l).
Proof. destruct l; [done|]. simpl. eauto. Qed.

Lemma py_min_is_Some (l : list T) : l ≠ [] → is_Some (py_min T tlt l).
Proof. destruct l; [done|]. simpl. eauto. Qed.

(** With at least one user, [run_concurrent_test] returns one result per
    user, for the users 1 to [num_users] in this order, all of them chat
    requests when [test_type] is ['chat'] and summary requests for any other
    value; the successes and failures it prints add up to [num_users] and
    neither is negative. *)
Theorem run_concurrent_test_counts (num_users : Z) test_type :
  (0 < num_users)%Z →
  ∃ results st,
    run_concurrent_test T tsum tdiv tlt net num_users test_type =
      Finished (results, st) ∧
    results =
      (if decide (test_type = "chat") then make_chat_request T net
       else make_summary_request T net) <$> seq 1 (Z.to_nat num_users) ∧
    Z.of_nat (length results) = num_users ∧
    user <$> results = seq 1 (Z.to_nat num_users) ∧
    successful st =
      Z.of_nat (length (filter (fun r => success r = true) results)) ∧
    (successful st + failed st = num_users)%Z ∧
    (0 ≤ successful st ≤ num_users)%Z ∧ (0 ≤ failed st)%Z.
Proof.
  intros Hpos. unfold run_concurrent_test.
  set (f := if decide (test_type = "chat") then make_chat_request T net
            else make_summary_request T net).
  set (results := f <$> seq 1 (Z.to_nat num_users)).
  assert ((if decide (test_type = "chat")
           then (fun i => make_chat_request T net (i + 1)) <$>
                  seq 0 (Z.to_nat num_users)
           else (fun i => make_summary_request T net (i + 1)) <$>
                  seq 0 (Z.to_nat num_users)) = results) as ->.
  { unfold results, f. rewrite <- (fmap_S_seq 0), <- list_fmap_compose.
    destruct (decide (test_type = "chat"));
      apply list_fmap_ext; intros i x _; simpl; f_equal; lia. }
  assert (length results = Z.to_nat num_users) as Hlen.
  { unfold results. by rewrite length_fmap, length_seq. }
  assert (elapsed <$> results ≠ []) as Hne.
  { intros Hnil%(f_equal length). rewrite length_fmap, Hlen in Hnil.
    simpl in Hnil. lia. }
  destruct (py_max_is_Some _ Hne) as [mx ->].
  destruct (py_min_is_Some _ Hne) as [mn ->].
  pose proof (length_filter (fun r => success r = true) results) as Hf.
  eexists _, _. split; [done|]. simpl.
  repeat split; try lia.
  unfold results. rewrite <- list_fmap_compose.
  rewrite <- (list_fmap_id (seq 1 (Z.to_nat num_users))) at 2.
  apply list_fmap_ext. intros i x _. unfold f. simpl.
  destruct (decide (test_type = "chat"));
    [apply make_chat_request_user|apply make_summary_request_user].
Qed.

End LoadTestProofs.

(** * Concrete runs of the further properties *)

Lemma server_drains_witness :
  let s := state_after echo_chat_pipe echo_summary_pipe busy_pool in
  reachable echo_chat_pipe echo_summary_pipe s ∧
  pending_work s = 11%nat ∧
  ∃ tr s', quiet tr ∧
           run echo_chat_pipe echo_summary_pipe s tr = Some s' ∧
           length tr = 11%nat ∧ quiescent s'.
Proof.
  intros s.
  assert (reachable echo_chat_pipe echo_summary_pipe s) as Hre.
  { exists busy_pool. by vm_compute. }
  split; [done|]. split; [by vm_compute|].
  destruct (server_drains echo_chat_pipe echo_summary_pipe s Hre)
    as (_ & tr & s' & Hq & Hr & Hlen & Hqs & _).
  exists tr, s'. split; [exact Hq|]. split; [exact Hr|].
  split; [exact Hlen|exact Hqs].
Defined.

Lemma pool_never_deadlocks_witness :
  let s := state_after echo_chat_pipe echo_summary_pipe busy_pool in
  reachable echo_chat_pipe echo_summary_pipe s ∧ ¬ quiescent s ∧
  ∃ e s', is_request e = false ∧
          exec echo_chat_pipe echo_summary_pipe s e = Some s'.
Proof.
  intros s.
  assert (reachable echo_chat_pipe echo_summary_pipe s) as Hre.
  { exists busy_pool. by vm_compute. }
  assert (¬ quiescent s) as Hnq.
  { intros (Hq & _). vm_compute in Hq. discriminate Hq. }
  split; [done|]. split; [done|].
  exact (pool_never_deadlocks echo_chat_pipe echo_summary_pipe s Hre Hnq).
Defined.

Lemma each_request_answered_at_most_once_witness :
  let s := state_after echo_chat_pipe echo_summary_pipe two_summaries in
  reachable echo_chat_pipe echo_summary_pipe s ∧
  responded_ids s = [0%nat; 1%nat] ∧ NoDup (responded_ids s).
Proof.
  intros s.
  assert (reachable echo_chat_pipe echo_summary_pipe s) as Hre.
  { exists two_summaries. by vm_compute. }
  split; [done|]. split; [by vm_compute|].
  exact (proj1 (each_request_answered_at_most_once
                  echo_chat_pipe echo_summary_pipe s Hre)).
Defined.

Lemma no_request_is_lost_witness :
  let s := state_after echo_chat_pipe echo_summary_pipe busy_pool in
  reachable echo_chat_pipe echo_summary_pipe s ∧
  length (requests s) = 6%nat ∧
  length (requests s) = (length (awaiting s) + length (responses s))%nat.
Proof.
  intros s.
  assert (reachable echo_chat_pipe echo_summary_pipe s) as Hre.
  { exists busy_pool. by vm_compute. }
  split; [done|]. split; [by vm_compute|].
  exact (proj1 (no_request_is_lost echo_chat_pipe echo_summary_pipe s Hre)).
Defined.

Lemma futures_are_assigned_once_witness :
  let s := state_after echo_chat_pipe echo_summary_pipe one_resolved in
  reachable echo_chat_pipe echo_summary_pipe s ∧
  futures s !! 0%nat = Some (Returns "hi") ∧
  ∃ s', run echo_chat_pipe echo_summary_pipe s
          [Request Summarize (text_body "x"); Pick; Respond 0] = Some s' ∧
        futures s' !! 0%nat = Some (Returns "hi").
Proof.
  intros s.
  assert (reachable echo_chat_pipe echo_summary_pipe s) as Hre.
  { exists one_resolved. by vm_compute. }
  assert (futures s !! 0%nat = Some (Returns "hi")) as Hf by (by vm_compute).
  split; [done|]. split; [done|].
  eexists. split; [by vm_compute|].
  eapply (proj1 (futures_are_assigned_once echo_chat_pipe echo_summary_pipe
                   s [Request Summarize (text_body "x"); Pick; Respond 0]
                   _ 0%nat (Returns "hi") Hre _ Hf)).
  Unshelve. by vm_compute.
Defined.


Lemma page_shows_backend_output_witness :
  let s := state_after echo_chat_pipe echo_summary_pipe one_running in
  let p := type_text "hello" (switchMode "summary" page_loaded) in
  reachable echo_chat_pipe echo_summary_pipe s ∧
  (submit_fetch p).1.2 = "/summarize" ∧
  ∃ ep, route "/summarize" = Some ep ∧
        text_field (submit_fetch p).2 = Some "hello".
Proof.
  intros s p.
  assert (reachable echo_chat_pipe echo_summary_pipe s) as Hre.
  { exists one_running. by vm_compute. }
  split; [done|]. split; [done|].
  destruct (page_shows_backend_output echo_chat_pipe echo_summary_pipe
              no_parse s p _ _ _ Hre eq_refl) as (ep & Hroute & Hb & _).
  exists ep. split; [exact Hroute|exact Hb].
Defined.

Lemma page_mode_switch_loses_the_answer_witness :
  let s := state_after echo_chat_pipe echo_summary_pipe [] in
  let p := type_text "hello" page_loaded in
  let resp := {| status_code := 200;
                 body := JsonContent (JObj [("response", JStr "hello")]) |} in
  reachable echo_chat_pipe echo_summary_pipe s ∧
  run_task echo_chat_pipe echo_summary_pipe Chat "hello" = Returns "hello" ∧
  output <$> submit_done no_parse
               (switchMode "summary" (submit_fetch p).1.1) resp =
    Some (Value None).
Proof.
  intros s p resp.
  assert (reachable echo_chat_pipe echo_summary_pipe s) as Hre.
  { exists []. by vm_compute. }
  assert (run_task echo_chat_pipe echo_summary_pipe Chat "hello" =
          Returns "hello") as Hrun by (by vm_compute).
  split; [done|]. split; [done|].
  refine (proj2 (page_mode_switch_loses_the_answer
                   echo_chat_pipe echo_summary_pipe no_parse
                   s p _ _ _ Chat "summary" "hello" Hre eq_refl eq_refl Hrun _
                   [Pick; Complete 0; Respond 0] _ resp _ _)).
  - split; [by intros _|by intros _].
  - by vm_compute.
  - apply (list_elem_of_lookup_2 _ 0%nat). by vm_compute.
Defined.

Lemma page_stuck_on_backend_failure_witness :
  let s := state_after failing_chat_pipe echo_summary_pipe [] in
  let p := type_text "hello" page_loaded in
  reachable failing_chat_pipe echo_summary_pipe s ∧
  no_parse "Internal Server Error" = None ∧
  submit_done no_parse (submit_fetch p).1.1 internal_server_error = None.
Proof.
  intros s p.
  assert (reachable failing_chat_pipe echo_summary_pipe s) as Hre.
  { exists []. by vm_compute. }
  split; [done|]. split; [done|].
  refine (proj2 (proj2 (page_stuck_on_backend_failure
                   failing_chat_pipe echo_summary_pipe no_parse
                   s p _ _ _ Chat (PipelineError "out of memory")
                   Hre eq_refl eq_refl eq_refl eq_refl)
                   [Pick; Complete 0; Respond 0] _ internal_server_error _ _)).
  - by vm_compute.
  - apply (list_elem_of_lookup_2 _ 0%nat). by vm_compute.
Defined.

Lemma page_buttons_match_endpoint_witness :
  let gs := [TypeText "a"; ClickSummary; ClickChat; ClickSummary] in
  (submit_fetch (page_after gs)).1.2 = "/summarize" ∧
  chatBtn_active (page_after gs) = negb (summaryBtn_active (page_after gs)).
Proof.
  intros gs. split; [done|].
  exact (proj1 (page_buttons_match_endpoint gs _ _ _ eq_refl)).
Defined.

Lemma load_test_success_means_backend_returned_witness :
  let s := state_after echo_chat_pipe echo_summary_pipe [] in
  let x := Failed "timeout" in
  reachable echo_chat_pipe echo_summary_pipe s ∧
  (∃ r, run_task echo_chat_pipe echo_summary_pipe Chat (chat_prompt 7) =
          Returns r) ∧
  success (make_result 7 (60 : Z) x) = false.
Proof.
  intros s x.
  assert (reachable echo_chat_pipe echo_summary_pipe s) as Hre.
  { exists []. by vm_compute. }
  split; [done|]. split; [eexists; by vm_compute|].
  refine (proj1 (proj2 (proj2 (proj1
            (load_test_success_means_backend_returned
               echo_chat_pipe echo_summary_pipe Z
               s 7%nat 60 [] _ x Hre _) _))) "timeout" eq_refl).
  - intros resp Hresp. discriminate Hresp.
  - by vm_compute.
Defined.

Lemma run_concurrent_test_needs_a_user_witness :
  (-3 ≤ 0)%Z ∧
  run_concurrent_test Z z_sum Z.div Z.ltb echo_net (-3) "chat" = ValueError.
Proof.
  split; [lia|].
  apply (run_concurrent_test_needs_a_user Z z_sum Z.div Z.ltb echo_net
           (-3) "chat").
  lia.
Defined.

Lemma run_concurrent_test_counts_witness :
  (0 < 20)%Z ∧
  ∃ results st,
    run_concurrent_test Z z_sum Z.div Z.ltb echo_net 20 "summarize" =
      Finished (results, st) ∧
    Z.of_nat (length results) = 20 ∧
    (successful st + failed st = 20)%Z.
Proof.
  split; [lia|].
  destruct (run_concurrent_test_counts Z z_sum Z.div Z.ltb echo_net
              20 "summarize") as (results & st & Hrun & _ & Hlen & _ & _ & Hsum & _).
  { lia. }
  exists results, st. split; [exact Hrun|]. split; [exact Hlen|exact Hsum].
Defined.
